(** * FlowGen: the step store, the generation walk and the upscale handler

    A shallow embedding of [App.tsx] (the React component that owns the
    step list), of the service functions it awaits ([generateFlowImage],
    [upscaleFlowImage], [requestApiKeySelection]) and of the conditions
    under which [StepCard.tsx] offers its controls.

    The component is event driven.  Its state is the three [useState]
    cells; an async handler runs until its next [await], where it leaves a
    continuation behind, and is resumed when the awaited promise settles.
    Every [setSteps] call of the source passes an updater function, so a
    continuation reads the list as it is when the continuation runs; what a
    handler reads through its closure ([steps], [isProcessing],
    [aspectRatio]) is the state of the render it was created in, which for
    a handler invoked by a user action is the current state. *)

From Stdlib Require Import String Ascii Bool Arith Lia Sorted.
From stdpp Require Import base option list strings relations.

(** ** JavaScript strings: truthiness, [trim], [includes]

    A string is a sequence of code units; the model has the code units
    below 256, one [ascii] each. *)

Module Js.

(** A string is truthy unless it is empty. *)
Definition truthy (s : string) : bool :=
  match s with
  | EmptyString => false
  | String _ _ => true
  end.

(** [string | null]: [null] and the empty string are falsy. *)
Definition truthy_opt (o : option string) : bool :=
  match o with
  | Some s => truthy s
  | None => false
  end.

(** [a || b] on strings. *)
Definition or_else (a b : string) : string := if truthy a then a else b.

(** White space and line terminators that [String.prototype.trim]
    strips, among the code units below 256: TAB, LF, VT, FF, CR, SP and
    NBSP. *)
Definition is_white_space (c : ascii) : bool :=
  match nat_of_ascii c with
  | 9 | 10 | 11 | 12 | 13 | 32 | 160 => true
  | _ => false
  end.

Fixpoint trimStart (s : string) : string :=
  match s with
  | EmptyString => EmptyString
  | String c t => if is_white_space c then trimStart t else s
  end.

Fixpoint trimEnd (s : string) : string :=
  match s with
  | EmptyString => EmptyString
  | String c t =>
      match trimEnd t with
      | EmptyString => if is_white_space c then EmptyString
                       else String c EmptyString
      | t' => String c t'
      end
  end.

Definition trim (s : string) : string := trimEnd (trimStart s).

(** The prompt is empty or made of white space only. *)
Fixpoint whitespace_only (s : string) : bool :=
  match s with
  | EmptyString => true
  | String c t => is_white_space c && whitespace_only t
  end.

(** [hay.includes(needle)]. *)
Fixpoint includes (needle hay : string) : bool :=
  String.prefix needle hay ||
  match hay with
  | EmptyString => false
  | String _ t => includes needle t
  end.

End Js.

(** ** types.ts *)

Inductive FlowStatus := IDLE | GENERATING | UPSCALING | COMPLETED | ERROR.

Inductive AspectRatio := Ratio_16_9 | Ratio_9_16.

(** [FlowStep].  The field [id] of the source is [step_id] here.  The
    optional fields [isUpscaled?] and [error?] are [None] when absent or
    [undefined]. *)
Record FlowStep := mkStep {
  step_id : string;
  prompt : string;
  status : FlowStatus;
  imageBase64 : option string;
  isUpscaled : option bool;
  error : option string
}.

Global Instance FlowStatus_eq_dec : EqDecision FlowStatus.
Proof. solve_decision. Defined.

Global Instance AspectRatio_eq_dec : EqDecision AspectRatio.
Proof. solve_decision. Defined.

Global Instance FlowStep_eq_dec : EqDecision FlowStep.
Proof. solve_decision. Defined.

(** [!!step.imageBase64], the [hasImage] of StepCard. *)
Definition hasImage (s : FlowStep) : bool := Js.truthy_opt (imageBase64 s).

(** The object a step card starts from: [{ id: uuidv4(), prompt: '',
    status: FlowStatus.IDLE, imageBase64: null }]. *)
Definition newStep (uuid : string) : FlowStep :=
  mkStep uuid "" IDLE None None None.

(** ** services/geminiService.ts *)

(** How an awaited promise settles. *)
Inductive Settled :=
| Fulfilled (value : string)
| RejectedWith (message : string).

(** What happens inside the [try] block around
    [ai.models.generateContent]: an error with some message is thrown (by
    the SDK, or while the answer is read), or the call answers.  Of an
    answer only what the extraction loop reads is kept: [None] when
    [response.candidates] or the [parts] of the first candidate are
    missing, else for each part its [inlineData.data] ([None] when the part
    has no inline data). *)
Inductive SdkResult :=
| SdkThrows (message : string)
| SdkResponse (parts : option (list (option string))).

(** [for (const part of parts) if (part.inlineData && part.inlineData.data)
    return part.inlineData.data]. *)
Fixpoint firstInlineData (parts : list (option string)) : option string :=
  match parts with
  | [] => None
  | part :: rest =>
      match part with
      | Some data => if Js.truthy data then Some data else firstInlineData rest
      | None => firstInlineData rest
      end
  end.

(** The body of the [try] block from the SDK call on: return the first
    image of the answer or throw [noImage]. *)
Definition extractImage (noImage : string) (r : SdkResult) : Settled :=
  match r with
  | SdkThrows message => RejectedWith message
  | SdkResponse None => RejectedWith noImage
  | SdkResponse (Some parts) =>
      match firstInlineData parts with
      | Some data => Fulfilled data
      | None => RejectedWith noImage
      end
  end.

(** [generateFlowImage(prompt, referenceImageBase64, aspectRatio)], as far
    as its caller sees it: its arguments shape the request, the SDK decides
    the outcome, and every error is rethrown as
    [new Error(error.message || "Failed to generate image")]. *)
Definition generateFlowImage (sdk : SdkResult) : Settled :=
  match extractImage "No image data found in response" sdk with
  | Fulfilled data => Fulfilled data
  | RejectedWith message =>
      RejectedWith (Js.or_else message "Failed to generate image")
  end.

(** The environment of one [upscaleFlowImage] call: what
    [window.aistudio.hasSelectedApiKey()] answers ([None] when AI Studio is
    not there) and what the SDK does when it is called.  An error thrown by
    the key check itself takes the path of a throwing SDK call. *)
Record UpscaleEnv := mkUpscaleEnv {
  hasSelectedApiKey : option bool;
  upscaleSdk : SdkResult
}.

Definition API_KEY_REQUIRED : string := "API_KEY_REQUIRED".
Definition API_KEY_INVALID : string := "API_KEY_INVALID".

(** [upscaleFlowImage(prompt, imageBase64, aspectRatio)]. *)
Definition upscaleFlowImage (env : UpscaleEnv) : Settled :=
  let body :=
    match hasSelectedApiKey env with
    | Some false => RejectedWith API_KEY_REQUIRED
    | _ => extractImage "No upscaled image data found" (upscaleSdk env)
    end in
  match body with
  | Fulfilled data => Fulfilled data
  | RejectedWith message =>
      if Js.truthy message
         && Js.includes "Requested entity was not found" message
      then RejectedWith API_KEY_INVALID
      else RejectedWith message
  end.

(** ** App.tsx: the updates passed to [setSteps] *)

(** [{ ...s, status: FlowStatus.GENERATING, error: undefined }] *)
Definition markGenerating (s : FlowStep) : FlowStep :=
  mkStep (step_id s) (prompt s) GENERATING (imageBase64 s) (isUpscaled s) None.

(** [{ ...s, status: FlowStatus.COMPLETED, imageBase64: generatedImageBase64,
    isUpscaled: false }] *)
Definition storeGenerated (image : string) (s : FlowStep) : FlowStep :=
  mkStep (step_id s) (prompt s) COMPLETED (Some image) (Some false) (error s).

(** [{ ...s, status: FlowStatus.ERROR, error: err.message }] *)
Definition markError (message : string) (s : FlowStep) : FlowStep :=
  mkStep (step_id s) (prompt s) ERROR (imageBase64 s) (isUpscaled s)
         (Some message).

(** [{ ...s, status: FlowStatus.UPSCALING }] *)
Definition markUpscaling (s : FlowStep) : FlowStep :=
  mkStep (step_id s) (prompt s) UPSCALING (imageBase64 s) (isUpscaled s)
         (error s).

(** [{ ...s, status: FlowStatus.COMPLETED, imageBase64: upscaledImage,
    isUpscaled: true }] *)
Definition storeUpscaled (image : string) (s : FlowStep) : FlowStep :=
  mkStep (step_id s) (prompt s) COMPLETED (Some image) (Some true) (error s).

(** [{ ...s, status: FlowStatus.COMPLETED }] *)
Definition resetCompleted (s : FlowStep) : FlowStep :=
  mkStep (step_id s) (prompt s) COMPLETED (imageBase64 s) (isUpscaled s)
         (error s).

(** [{ ...s, status: FlowStatus.COMPLETED,
    error: "Upscale failed. Please try again." }] *)
Definition upscaleFailed (s : FlowStep) : FlowStep :=
  mkStep (step_id s) (prompt s) COMPLETED (imageBase64 s) (isUpscaled s)
         (Some "Upscale failed. Please try again.").

(** [{ ...s, prompt: newPrompt }] *)
Definition withPrompt (newPrompt : string) (s : FlowStep) : FlowStep :=
  mkStep (step_id s) newPrompt (status s) (imageBase64 s) (isUpscaled s)
         (error s).

(** [prev.map((s, idx) => idx === i ? f(s) : s)] *)
Definition atIndex (i : nat) (f : FlowStep -> FlowStep)
    (prev : list FlowStep) : list FlowStep :=
  imap (fun idx s => if decide (idx = i) then f s else s) prev.

(** [prev.map(s => s.id === id ? f(s) : s)] *)
Definition byId (id : string) (f : FlowStep -> FlowStep)
    (prev : list FlowStep) : list FlowStep :=
  (fun s => if decide (step_id s = id) then f s else s) <$> prev.

Arguments atIndex : simpl never.
Arguments byId : simpl never.

(** [steps.find(s => s.id === id)] *)
Definition findStep (id : string) (l : list FlowStep) : option FlowStep :=
  List.find (fun s => bool_decide (step_id s = id)) l.

(** ** App.tsx: state, pending continuations, handlers *)

(** A [generateImages] call suspended at [await generateFlowImage(...)] in
    iteration [i]: the local variables it resumes with.  [walk_step] is
    [currentSteps[i]] and [walk_rest] is what follows it in [currentSteps],
    the copy of [steps] taken when the walk started; [walk_aspectRatio] is
    the [aspectRatio] of its closure. *)
Record Walk := mkWalk {
  walk_index : nat;
  walk_step : FlowStep;
  walk_rest : list FlowStep;
  walk_previousImage : option string;
  walk_aspectRatio : AspectRatio
}.

(** A [handleUpscale(id)] call suspended at [await upscaleFlowImage(...)] or,
    inside its [catch], at [await requestApiKeySelection()], which opens
    the selection dialog of AI Studio when there is one and logs a warning
    otherwise. *)
Inductive Upscale :=
| AwaitUpscale (id : string)
| AwaitKeySelection (id : string).

(** The calls made to the service, in order.  [CallGenerate] also records
    the loop index of the walk that made the call (the [i] the source
    prints in its error message), which the service does not receive. *)
Inductive Call :=
| CallGenerate (i : nat) (prompt : string) (referenceImage : option string)
    (ratio : AspectRatio)
| CallUpscale (prompt : string) (image : string) (ratio : AspectRatio)
| CallKeySelection.

(** The three [useState] cells of [App], the suspended handlers and the
    calls made so far. *)
Record World := mkWorld {
  steps : list FlowStep;
  isProcessing : bool;
  aspectRatio : AspectRatio;
  walks : list Walk;
  upscales : list Upscale;
  calls : list Call
}.

(** [useState] initial values; nothing is pending. *)
Definition initial (uuid : string) : World :=
  mkWorld [newStep uuid] false Ratio_16_9 [] [] [].

(** What the [for] loop of [generateImages] does from iteration [i] until
    it needs the service or runs out of steps.  [fromI] is [currentSteps]
    from index [i] on. *)
Inductive LoopResult :=
| LoopEnd
| LoopAwait (i : nat) (step : FlowStep) (previousImage : option string)
    (rest : list FlowStep).

Fixpoint loop (fromI : list FlowStep) (i : nat)
    (previousImage : option string) : LoopResult :=
  match fromI with
  | [] => LoopEnd
  | step :: rest =>
      if negb (Js.truthy (Js.trim (prompt step))) then
        loop rest (S i)
             (if hasImage step then imageBase64 step else previousImage)
      else if hasImage step && bool_decide (status step = COMPLETED) then
        loop rest (S i) (imageBase64 step)
      else
        LoopAwait i step previousImage rest
  end.

(** The walk from the top of an iteration on: either the loop ends and the
    [finally] block clears the flag, or the step is marked [GENERATING],
    the service is called and the walk is suspended. *)
Definition continueWalk (w : World) (ratio : AspectRatio) (r : LoopResult)
    : World :=
  match r with
  | LoopEnd =>
      mkWorld (steps w) false (aspectRatio w) (walks w) (upscales w) (calls w)
  | LoopAwait i step previousImage rest =>
      mkWorld (atIndex i markGenerating (steps w)) (isProcessing w)
              (aspectRatio w)
              (walks w ++ [mkWalk i step rest previousImage ratio])
              (upscales w)
              (calls w ++ [CallGenerate i (prompt step) previousImage ratio])
  end.

(** [addStep], with the identifier [uuidv4()] returns. *)
Definition addStep (uuid : string) (w : World) : World :=
  mkWorld (steps w ++ [newStep uuid]) (isProcessing w) (aspectRatio w)
          (walks w) (upscales w) (calls w).

Definition removeStep (id : string) (w : World) : World :=
  if decide (length (steps w) <= 1) then w
  else mkWorld (filter (fun s => step_id s <> id) (steps w)) (isProcessing w)
               (aspectRatio w) (walks w) (upscales w) (calls w).

Definition updatePrompt (id newPrompt : string) (w : World) : World :=
  mkWorld (byId id (withPrompt newPrompt) (steps w)) (isProcessing w)
          (aspectRatio w) (walks w) (upscales w) (calls w).

Definition setAspectRatio (ratio : AspectRatio) (w : World) : World :=
  mkWorld (steps w) (isProcessing w) ratio (walks w) (upscales w) (calls w).

(** [generateImages], up to its first [await]. *)
Definition generateImages (w : World) : World :=
  if isProcessing w then w
  else
    continueWalk
      (mkWorld (steps w) true (aspectRatio w) (walks w) (upscales w) (calls w))
      (aspectRatio w)
      (loop (steps w) 0 None).

(** [generateImages] resumed: the promise of the [k]-th suspended walk
    settles. *)
Definition generateSettled (k : nat) (sdk : SdkResult) (w : World) : World :=
  match walks w !! k with
  | None => w
  | Some t =>
      let i := walk_index t in
      match generateFlowImage sdk with
      | Fulfilled generatedImageBase64 =>
          continueWalk
            (mkWorld (atIndex i (storeGenerated generatedImageBase64) (steps w))
                     (isProcessing w) (aspectRatio w) (delete k (walks w))
                     (upscales w) (calls w))
            (walk_aspectRatio t)
            (loop (walk_rest t) (S i) (Some generatedImageBase64))
      | RejectedWith message =>
          mkWorld (atIndex i (markError message) (steps w)) false
                  (aspectRatio w) (delete k (walks w)) (upscales w) (calls w)
      end
  end.

(** [handleUpscale(id)], up to its first [await]. *)
Definition handleUpscale (id : string) (w : World) : World :=
  match findStep id (steps w) with
  | None => w
  | Some step =>
      match imageBase64 step with
      | None => w
      | Some image =>
          if negb (Js.truthy image) || bool_decide (status step = UPSCALING)
          then w
          else
            mkWorld (byId id markUpscaling (steps w)) (isProcessing w)
                    (aspectRatio w) (walks w)
                    (upscales w ++ [AwaitUpscale id])
                    (calls w ++ [CallUpscale (prompt step) image
                                             (aspectRatio w)])
      end
  end.

(** [handleUpscale] resumed: the promise of [upscaleFlowImage] settles for
    the [k]-th suspended call. *)
Definition upscaleSettled (k : nat) (env : UpscaleEnv) (w : World) : World :=
  match upscales w !! k with
  | Some (AwaitUpscale id) =>
      match upscaleFlowImage env with
      | Fulfilled upscaledImage =>
          mkWorld (byId id (storeUpscaled upscaledImage) (steps w))
                  (isProcessing w) (aspectRatio w) (walks w)
                  (delete k (upscales w)) (calls w)
      | RejectedWith message =>
          if bool_decide (message = API_KEY_REQUIRED)
             || bool_decide (message = API_KEY_INVALID)
          then
            mkWorld (steps w) (isProcessing w) (aspectRatio w) (walks w)
                    (<[k := AwaitKeySelection id]> (upscales w))
                    (calls w ++ [CallKeySelection])
          else
            mkWorld (byId id upscaleFailed (steps w)) (isProcessing w)
                    (aspectRatio w) (walks w) (delete k (upscales w)) (calls w)
      end
  | _ => w
  end.

(** [handleUpscale] resumed after [await requestApiKeySelection()]. *)
Definition keySelectionSettled (k : nat) (w : World) : World :=
  match upscales w !! k with
  | Some (AwaitKeySelection id) =>
      mkWorld (byId id resetCompleted (steps w)) (isProcessing w)
              (aspectRatio w) (walks w) (delete k (upscales w)) (calls w)
  | _ => w
  end.

(** [handleUpscale] when [await requestApiKeySelection()] throws
    ([openSelectKey()] rejects): the [await] stands in the [catch] block
    with nothing around it, so the handler ends there and updates
    nothing. *)
Definition keySelectionFailed (k : nat) (w : World) : World :=
  match upscales w !! k with
  | Some (AwaitKeySelection id) =>
      mkWorld (steps w) (isProcessing w) (aspectRatio w) (walks w)
              (delete k (upscales w)) (calls w)
  | _ => w
  end.

(** What can happen to the component: a user action, or a pending promise
    settling. *)
Inductive Event :=
| AddStep (uuid : string)
| RemoveStep (id : string)
| UpdatePrompt (id newPrompt : string)
| SetAspectRatio (ratio : AspectRatio)
| GenerateImages
| HandleUpscale (id : string)
| GenerateSettled (k : nat) (sdk : SdkResult)
| UpscaleSettled (k : nat) (env : UpscaleEnv)
| KeySelectionSettled (k : nat)
| KeySelectionFailed (k : nat).

Definition dispatch (w : World) (e : Event) : World :=
  match e with
  | AddStep uuid => addStep uuid w
  | RemoveStep id => removeStep id w
  | UpdatePrompt id newPrompt => updatePrompt id newPrompt w
  | SetAspectRatio ratio => setAspectRatio ratio w
  | GenerateImages => generateImages w
  | HandleUpscale id => handleUpscale id w
  | GenerateSettled k sdk => generateSettled k sdk w
  | UpscaleSettled k env => upscaleSettled k env w
  | KeySelectionSettled k => keySelectionSettled k w
  | KeySelectionFailed k => keySelectionFailed k w
  end.

Definition run (w : World) (events : list Event) : World :=
  fold_left dispatch events w.

(** [uuidv4()] is taken to return an identifier no step of the list has. *)
Definition admissible (w : World) (e : Event) : Prop :=
  match e with
  | AddStep uuid => uuid ∉ step_id <$> steps w
  | _ => True
  end.

Inductive reachable : World -> Prop :=
| reachable_initial uuid : reachable (initial uuid)
| reachable_dispatch w e :
    reachable w -> admissible w e -> reachable (dispatch w e).

(** One [generateImages] call followed to its end with nothing else
    happening in between: the walk starts, and each element of [sdks] is
    what the SDK does for the next call the walk awaits. *)
Definition runFlow (w : World) (sdks : list SdkResult) : World :=
  run (generateImages w) (GenerateSettled 0 <$> sdks).

(** [admissible], decided. *)
Definition admissibleb (w : World) (e : Event) : bool :=
  match e with
  | AddStep uuid => bool_decide (uuid ∉ step_id <$> steps w)
  | _ => true
  end.

(** Every event of the list is admissible when its turn comes. *)
Fixpoint allAdmissible (w : World) (events : list Event) : bool :=
  match events with
  | [] => true
  | e :: rest => admissibleb w e && allAdmissible (dispatch w e) rest
  end.

(** ** StepCard.tsx and the header: which controls are offered *)

(** [disabled={isGenerating || isUpscaling}] on the textarea and on the
    delete button of a card. *)
Definition cardDisabled (s : FlowStep) : bool :=
  bool_decide (status s = GENERATING) || bool_decide (status s = UPSCALING).

(** The "Upscale 2K" button is rendered when the output area is, the step
    is not generating, has an image, is not upscaling and is not upscaled. *)
Definition upscaleOffered (s : FlowStep) : bool :=
  (hasImage s || bool_decide (status s = GENERATING)
   || bool_decide (status s = UPSCALING)
   || Js.truthy_opt (error s))
  && negb (bool_decide (status s = GENERATING))
  && hasImage s
  && negb (bool_decide (status s = UPSCALING))
  && negb (bool_decide (isUpscaled s = Some true)).

Definition onCard (id : string) (p : FlowStep -> bool) (w : World) : bool :=
  existsb (fun s => bool_decide (step_id s = id) && p s) (steps w).

(** A user action the rendered page lets the user take in [w]; promises
    settle whenever the environment decides.  [generateImages] is reached
    through the header button (disabled while processing); the Enter key in
    a textarea reaches it too, which this condition leaves out. *)
Definition offered (w : World) (e : Event) : bool :=
  match e with
  | AddStep _ => negb (isProcessing w)
  | RemoveStep id => onCard id (fun s => negb (cardDisabled s)) w
  | UpdatePrompt id _ => onCard id (fun s => negb (cardDisabled s)) w
  | SetAspectRatio _ => true
  | GenerateImages => negb (isProcessing w)
  | HandleUpscale id => onCard id upscaleOffered w
  | GenerateSettled _ _ | UpscaleSettled _ _ | KeySelectionSettled _
  | KeySelectionFailed _ => true
  end.

(** Every event of the list is offered when its turn comes. *)
Fixpoint allOffered (w : World) (events : list Event) : bool :=
  match events with
  | [] => true
  | e :: rest => offered w e && allOffered (dispatch w e) rest
  end.

(** ** The walk's decisions *)

(** A step the loop calls the service for: its prompt is not blank and it
    is not already completed with an image. *)
Definition needsGeneration (s : FlowStep) : bool :=
  Js.truthy (Js.trim (prompt s))
  && negb (hasImage s && bool_decide (status s = COMPLETED)).

(** What passing over a step does to [previousImage]. *)
Definition adopt (previousImage : option string) (s : FlowStep)
    : option string :=
  if hasImage s then imageBase64 s else previousImage.

(** ** Invariants *)

(** A stored image is a non-empty string. *)
Definition imageTruthy (s : FlowStep) : Prop :=
  forall image, imageBase64 s = Some image -> Js.truthy image = true.

Definition imagesTruthy (l : list FlowStep) : Prop := Forall imageTruthy l.

(** An update of one step that keeps its identifier and stores no empty
    image. *)
Definition goodPatch (f : FlowStep -> FlowStep) : Prop :=
  (forall s, step_id (f s) = step_id s)
  /\ (forall s, imageTruthy s -> imageTruthy (f s)).

(** The list part of well-formedness: images are non-empty, identifiers
    are distinct, and there is at least one step. *)
Definition storeOk (l : list FlowStep) : Prop :=
  imagesTruthy l /\ NoDup (step_id <$> l) /\ 1 <= length l.

(** What holds of the component whenever it is idle between two events. *)
Record wellFormed (w : World) : Prop := mkWellFormed {
  wf_images : imagesTruthy (steps w);
  wf_ids : NoDup (step_id <$> steps w);
  wf_nonempty : 1 <= length (steps w);
  wf_flight :
    (isProcessing w = true /\ length (walks w) = 1)
    \/ (isProcessing w = false /\ walks w = [])
}.

(** The live list against the copy a walk started from: same length, and
    equal at every index from [n] on and at every index whose step the loop
    passes over. *)
Definition untouched (snapshot live : list FlowStep) (n : nat) : Prop :=
  length live = length snapshot /\
  forall j s, snapshot !! j = Some s ->
              n <= j \/ needsGeneration s = false ->
              live !! j = Some s.

(** A call a walk over [snapshot] has made before reaching index [n]: a
    generate call for a step [k] below [n] that needs generation, with that
    step's prompt and the walk's aspect ratio.  Its reference is what
    [adopt] makes of the steps [mid] the loop passed over just before [k],
    starting from nothing when [mid] begins the list and otherwise from the
    result for the step generated before [mid]. *)
Definition walkCall (snapshot : list FlowStep) (ratio : AspectRatio)
    (n : nat) (c : Call) : Prop :=
  match c with
  | CallGenerate k p r a =>
      k < n /\ a = ratio /\
      exists s, snapshot !! k = Some s /\ needsGeneration s = true /\
                p = prompt s /\
                exists before mid base,
                  take k snapshot = before ++ mid /\
                  Forall (fun x => needsGeneration x = false) mid /\
                  ((before = [] /\ base = None)
                   \/ exists g, last before = Some g
                                /\ needsGeneration g = true) /\
                  r = fold_left adopt mid base
  | _ => False
  end.

(** The walk is over, or it is suspended in iteration [n - 1] on the step
    it marked [GENERATING]. *)
Definition walkState (snapshot : list FlowStep) (ratio : AspectRatio)
    (n : nat) (w : World) : Prop :=
  (walks w = [] /\ isProcessing w = false)
  \/ exists t pre,
       walks w = [t] /\ isProcessing w = true /\ n = S (walk_index t) /\
       walk_aspectRatio t = ratio /\
       snapshot = pre ++ walk_step t :: walk_rest t /\
       length pre = walk_index t /\
       needsGeneration (walk_step t) = true /\
       steps w !! walk_index t = Some (markGenerating (walk_step t)).

(** [w] is a state of the walk started in [w0] with nothing else
    happening since. *)
Definition walkInv (w0 w : World) (n : nat) : Prop :=
  aspectRatio w = aspectRatio w0 /\ upscales w = upscales w0 /\
  (exists new, calls w = calls w0 ++ new /\
               Forall (walkCall (steps w0) (aspectRatio w0) n) new) /\
  untouched (steps w0) (steps w) n /\
  walkState (steps w0) (aspectRatio w0) n w.

(** No walk is in progress and none is suspended: [generateImages] can
    start one. *)
Definition idle (w : World) : Prop := isProcessing w = false /\ walks w = [].

(** ** StepCard.tsx: the outputs area of a card *)

(** What stands inside the frame of the outputs area: the spinner while
    the step is generating; else, when the step has an image, the picture,
    with the overlay "Upscaling to 2K..." while upscaling and otherwise the
    action overlay, whose "Upscale 2K" button is left out for an upscaled
    image; else the error text; else nothing. *)
Inductive Body :=
| Spinner
| Picture (upscalingOverlay actionOverlay upscaleButton : bool)
| ErrorText (message : string)
| Nothing.

(** The outputs area: the "2K" badge and the body. *)
Record OutputArea := mkOutput {
  badge2K : bool;
  body : Body
}.

(** The outputs area of the card of [s]; [None] when it is not rendered. *)
Definition outputArea (s : FlowStep) : option OutputArea :=
  let isGenerating := bool_decide (status s = GENERATING) in
  let isUpscaling := bool_decide (status s = UPSCALING) in
  let upscaled := bool_decide (isUpscaled s = Some true) in
  if hasImage s || isGenerating || isUpscaling || Js.truthy_opt (error s)
  then
    Some (mkOutput (upscaled && negb isUpscaling)
            (if isGenerating then Spinner
             else if hasImage s then
               Picture isUpscaling (negb isUpscaling)
                       (negb isUpscaling && negb upscaled)
             else
               match error s with
               | Some message =>
                   if Js.truthy message then ErrorText message else Nothing
               | None => Nothing
               end))
  else None.

(** ** One walk told as a recursion over the list

    What [generateImages] makes of the steps from index [i] on when it is
    left alone and the service answers with [sdks], one answer per call:
    the steps as the walk leaves them and the calls it makes.  A step the
    loop passes over stays; a step it generates is marked [GENERATING] and
    then, when the answer is there, completed or marked [ERROR]; after a
    failure, or when the answers run out, the rest stays. *)
Fixpoint walkFrom (fromI : list FlowStep) (i : nat)
    (previousImage : option string) (ratio : AspectRatio)
    (sdks : list SdkResult) : list FlowStep * list Call :=
  match fromI with
  | [] => ([], [])
  | step :: rest =>
      if needsGeneration step then
        let call := CallGenerate i (prompt step) previousImage ratio in
        match sdks with
        | [] => (markGenerating step :: rest, [call])
        | sdk :: sdks' =>
            match generateFlowImage sdk with
            | Fulfilled image =>
                let r := walkFrom rest (S i) (Some image) ratio sdks' in
                (storeGenerated image (markGenerating step) :: r.1,
                 call :: r.2)
            | RejectedWith message =>
                (markError message (markGenerating step) :: rest, [call])
            end
        end
      else
        let r := walkFrom rest (S i) (adopt previousImage step) ratio sdks in
        (step :: r.1, r.2)
  end.

(** What a walk whose calls all succeed makes of a step [s]: a step that
    needs generation is completed with an image, not upscaled and without
    error; any other step stays. *)
Definition completedFrom (s s' : FlowStep) : Prop :=
  if needsGeneration s then
    step_id s' = step_id s /\ prompt s' = prompt s /\ status s' = COMPLETED
    /\ hasImage s' = true /\ isUpscaled s' = Some false /\ error s' = None
  else s' = s.

(** The answer is an image. *)
Definition fulfils (sdk : SdkResult) : Prop :=
  exists image, generateFlowImage sdk = Fulfilled image.

(** A generate call of a walk with aspect ratio [ratio], read against
    [final], the list as the walk leaves it: the call is made for the step
    at its index, with that step's prompt, and its reference is what
    [adopt] makes of the steps before it, that is the image of the nearest
    earlier step that holds one. *)
Definition chainedCall (final : list FlowStep) (ratio : AspectRatio)
    (c : Call) : Prop :=
  match c with
  | CallGenerate k p r a =>
      a = ratio
      /\ (exists s, final !! k = Some s /\ p = prompt s)
      /\ r = fold_left adopt (take k final) None
  | _ => False
  end.

(** The loop index of a generate call. *)
Definition callIndex (c : Call) : nat :=
  match c with
  | CallGenerate k _ _ _ => k
  | _ => 0
  end.

(** The aspect ratio of a generate call is [ratio]. *)
Definition generateRatio (ratio : AspectRatio) (c : Call) : Prop :=
  match c with
  | CallGenerate _ _ _ a => a = ratio
  | _ => True
  end.

(** The updates of one step that the handlers pass to [setSteps]; the
    images stored are those the service returned, which are not empty. *)
Inductive update : FlowStep -> FlowStep -> Prop :=
| update_prompt p s : update s (withPrompt p s)
| update_generating s : update s (markGenerating s)
| update_generated image s :
    Js.truthy image = true -> update s (storeGenerated image s)
| update_error message s : update s (markError message s)
| update_upscaling s : update s (markUpscaling s)
| update_upscaled image s :
    Js.truthy image = true -> update s (storeUpscaled image s)
| update_reset s : update s (resetCompleted s)
| update_failed s : update s (upscaleFailed s).

(** Any number of such updates, one after the other. *)
Definition updates : FlowStep -> FlowStep -> Prop := rtc update.

(** The identifier a suspended [handleUpscale] call works on. *)
Definition upscaleId (u : Upscale) : string :=
  match u with
  | AwaitUpscale id => id
  | AwaitKeySelection id => id
  end.

(** A step in [IDLE] is as [addStep] made it, but for its prompt. *)
Definition idlePristine (s : FlowStep) : Prop :=
  status s = IDLE ->
  imageBase64 s = None /\ isUpscaled s = None /\ error s = None.

(** A step in [UPSCALING] has a [handleUpscale] call in flight. *)
Definition upscalingPending (w : World) : Prop :=
  forall s, s ∈ steps w -> status s = UPSCALING ->
            exists u, u ∈ upscales w /\ upscaleId u = step_id s.

(** ** Scenarios *)

(** A one-step flow is generated and its upscale is started; while the
    upscale is pending the flow is run again, which regenerates the step
    (it is [UPSCALING], not [COMPLETED]); the upscale fails, then the
    generation fails.  Every action is one the page offers. *)
Definition regenerateWhileUpscaling : list Event :=
  [ UpdatePrompt "a" "empty room";
    GenerateImages;
    GenerateSettled 0 (SdkResponse (Some [Some "A"]));
    HandleUpscale "a";
    GenerateImages;
    UpscaleSettled 0 (mkUpscaleEnv None (SdkThrows "quota exceeded"));
    GenerateSettled 0 (SdkThrows "rate limited") ].

Definition errorWithImage : World :=
  run (initial "a") regenerateWhileUpscaling.

(** Two scenes with their prompts, nothing generated yet. *)
Definition twoScenes : World :=
  run (initial "a")
      [ UpdatePrompt "a" "empty room"; AddStep "b";
        UpdatePrompt "b" "add a sofa" ].

(** The first scene generated (image ["A"]), no second scene yet. *)
Definition firstGenerated : World :=
  run (initial "a")
      [ UpdatePrompt "a" "empty room"; GenerateImages;
        GenerateSettled 0 (SdkResponse (Some [Some "A"])) ].

(** The first scene generated, the second one waiting with its prompt. *)
Definition firstDone : World :=
  run firstGenerated [ AddStep "b"; UpdatePrompt "b" "add a sofa" ].

(** As [firstDone], with the prompt of the first scene blanked. *)
Definition firstBlanked : World := run firstDone [ UpdatePrompt "a" "  " ].

(** A walk over one scene, suspended on its generate call. *)
Definition midWalk : World :=
  run (initial "a") [ UpdatePrompt "a" "empty room"; GenerateImages ].

(** The first scene generated; one upscale of it has failed and left its
    message, a second one is pending. *)
Definition secondUpscalePending : World :=
  run firstGenerated
      [ HandleUpscale "a";
        UpscaleSettled 0 (mkUpscaleEnv None (SdkThrows "quota exceeded"));
        HandleUpscale "a" ].

(** Three scenes; the first is generated and the walk is suspended on the
    second. *)
Definition secondGenerating : World :=
  run (initial "a")
      [ UpdatePrompt "a" "empty room"; AddStep "b";
        UpdatePrompt "b" "add a sofa"; AddStep "c";
        UpdatePrompt "c" "add a lamp"; GenerateImages;
        GenerateSettled 0 (SdkResponse (Some [Some "A"])) ].

(** *** A step is removed while a walk is suspended

    Three runs of actions the page offers, each with the removal of a card
    other than the one being generated while a call of the walk is
    pending. *)

(** Three scenes; the first is generated, and while the call for the
    second is pending the first is removed; then the call fails. *)
Definition removalThenFailure : list Event :=
  [ UpdatePrompt "a" "empty room"; AddStep "b";
    UpdatePrompt "b" "add a sofa"; AddStep "c";
    UpdatePrompt "c" "add a lamp"; GenerateImages;
    GenerateSettled 0 (SdkResponse (Some [Some "A"]));
    RemoveStep "a";
    GenerateSettled 0 (SdkThrows "rate limited") ].

(** Three scenes of which only the third has a prompt: it is generated
    (image ["C"]); then the first two get their prompts. *)
Definition thirdCompleted : World :=
  run (initial "a")
      [ AddStep "b"; AddStep "c"; UpdatePrompt "c" "add a lamp";
        GenerateImages; GenerateSettled 0 (SdkResponse (Some [Some "C"]));
        UpdatePrompt "a" "empty room"; UpdatePrompt "b" "add a sofa" ].

(** From [thirdCompleted]: the flow is run, the second scene is removed
    while the call for the first is pending, and both calls of the walk
    succeed. *)
Definition removalThenSuccess : list Event :=
  [ GenerateImages; RemoveStep "b";
    GenerateSettled 0 (SdkResponse (Some [Some "A"]));
    GenerateSettled 0 (SdkResponse (Some [Some "B"])) ].

(** Three scenes, the third with a blank prompt. *)
Definition thirdBlank : World :=
  run (initial "a")
      [ UpdatePrompt "a" "empty room"; AddStep "b";
        UpdatePrompt "b" "add a sofa"; AddStep "c" ].

(** From [thirdBlank]: the flow is run, the second scene is removed while
    the call for the first is pending, the first call succeeds and the
    second fails. *)
Definition removalThenBlankMarked : list Event :=
  [ GenerateImages; RemoveStep "b";
    GenerateSettled 0 (SdkResponse (Some [Some "A"]));
    GenerateSettled 0 (SdkThrows "rate limited") ].

(** * Proofs *)

(** ** The service functions *)

Lemma trim_truthy (s : string) :
  Js.truthy (Js.trim s) = negb (Js.whitespace_only s).
Proof.
  unfold Js.trim.
  induction s as [|c t IH]; [reflexivity|].
  cbn [Js.trimStart Js.whitespace_only].
  destruct (Js.is_white_space c) eqn:Hc; [exact IH|].
  cbn [Js.trimEnd andb negb]. rewrite Hc.
  by destruct (Js.trimEnd t).
Qed.

Lemma firstInlineData_truthy parts data :
  firstInlineData parts = Some data -> Js.truthy data = true.
Proof.
  induction parts as [|[d|] rest IH]; cbn; [done| |exact IH].
  destruct (Js.truthy d) eqn:Hd; [|exact IH].
  by intros [= <-].
Qed.

Lemma extractImage_truthy noImage r data :
  extractImage noImage r = Fulfilled data -> Js.truthy data = true.
Proof.
  destruct r as [m|[parts|]]; cbn; try done.
  destruct (firstInlineData parts) eqn:Hf; [|done].
  intros [= <-]. by eapply firstInlineData_truthy.
Qed.

Lemma generateFlowImage_truthy sdk image :
  generateFlowImage sdk = Fulfilled image -> Js.truthy image = true.
Proof.
  unfold generateFlowImage.
  destruct (extractImage _ sdk) eqn:He; [|done].
  intros [= <-]. by eapply extractImage_truthy.
Qed.

Lemma upscaleFlowImage_truthy env image :
  upscaleFlowImage env = Fulfilled image -> Js.truthy image = true.
Proof.
  unfold upscaleFlowImage. cbv zeta.
  match goal with
  | |- match ?b with Fulfilled _ => _ | RejectedWith _ => _ end = _ -> _ =>
      destruct b as [data|message] eqn:Hb
  end.
  - intros [= <-].
    destruct (hasSelectedApiKey env) as [[|]|]; try done;
      by eapply extractImage_truthy.
  - by destruct (Js.truthy message && _).
Qed.

(** The two ways [upscaleFlowImage] comes to fail with one of the two
    messages [handleUpscale] treats as a missing key. *)
Lemma upscaleFlowImage_key_required env :
  hasSelectedApiKey env = Some false ->
  upscaleFlowImage env = RejectedWith API_KEY_REQUIRED.
Proof. unfold upscaleFlowImage. by intros ->. Qed.

Lemma upscaleFlowImage_key_invalid env message :
  hasSelectedApiKey env <> Some false ->
  upscaleSdk env = SdkThrows message ->
  Js.includes "Requested entity was not found" message = true ->
  upscaleFlowImage env = RejectedWith API_KEY_INVALID.
Proof.
  unfold upscaleFlowImage. intros Hk -> Hinc.
  assert (Js.truthy message = true) as Ht by (by destruct message).
  destruct (hasSelectedApiKey env) as [[|]|]; cbn [extractImage];
    try done; by rewrite Ht, Hinc.
Qed.

Example trim_inner_space : Js.trim "  add a sofa " = "add a sofa".
Proof. reflexivity. Qed.

Example includes_not_found :
  Js.includes "Requested entity was not found"
              "404: Requested entity was not found." = true.
Proof. reflexivity. Qed.

(** ** The model on three runs

    Two scenes generated in order, the second with the first image as
    reference; a first call that fails; a flow run again after its first
    scene is done. *)

Example run_two_scenes :
  let w := runFlow twoScenes [SdkResponse (Some [Some "A"]);
                              SdkResponse (Some [None; Some "B"])] in
  steps w = [mkStep "a" "empty room" COMPLETED (Some "A") (Some false) None;
             mkStep "b" "add a sofa" COMPLETED (Some "B") (Some false) None]
  /\ calls w = [CallGenerate 0 "empty room" None Ratio_16_9;
                CallGenerate 1 "add a sofa" (Some "A") Ratio_16_9]
  /\ isProcessing w = false /\ walks w = [].
Proof. by vm_compute. Qed.

Example run_rate_limited :
  let w := runFlow twoScenes [SdkThrows "rate limited"] in
  steps w = [mkStep "a" "empty room" ERROR None None (Some "rate limited");
             mkStep "b" "add a sofa" IDLE None None None]
  /\ calls w = [CallGenerate 0 "empty room" None Ratio_16_9]
  /\ isProcessing w = false /\ walks w = [].
Proof. by vm_compute. Qed.

Example run_again :
  let w := runFlow firstDone [SdkResponse (Some [Some "B"])] in
  steps w = [mkStep "a" "empty room" COMPLETED (Some "A") (Some false) None;
             mkStep "b" "add a sofa" COMPLETED (Some "B") (Some false) None]
  /\ calls w = calls firstDone
               ++ [CallGenerate 1 "add a sofa" (Some "A") Ratio_16_9].
Proof. by vm_compute. Qed.

(** ** Updating the list *)

Lemma atIndex_lookup i f (l : list FlowStep) j :
  atIndex i f l !! j = (fun s => if decide (j = i) then f s else s) <$> l !! j.
Proof. unfold atIndex. by rewrite list_lookup_imap. Qed.

Lemma atIndex_lookup_ne i f (l : list FlowStep) j :
  j <> i -> atIndex i f l !! j = l !! j.
Proof.
  intros Hne. rewrite atIndex_lookup.
  destruct (l !! j); cbn; [|done]. by rewrite decide_False.
Qed.

Lemma atIndex_lookup_eq i f (l : list FlowStep) s :
  l !! i = Some s -> atIndex i f l !! i = Some (f s).
Proof.
  intros Hs. rewrite atIndex_lookup, Hs. cbn. by rewrite decide_True.
Qed.

Lemma atIndex_length i f (l : list FlowStep) :
  length (atIndex i f l) = length l.
Proof. unfold atIndex. by rewrite length_imap. Qed.

Lemma atIndex_Forall (P : FlowStep -> Prop) i f l :
  (forall s, P s -> P (f s)) -> Forall P l -> Forall P (atIndex i f l).
Proof.
  intros Hf Hl. apply Forall_lookup. intros j s.
  rewrite atIndex_lookup. destruct (l !! j) as [s0|] eqn:Hj; [|done].
  cbn. intros [= <-]. pose proof (Forall_lookup_1 _ _ _ _ Hl Hj).
  destruct (decide (j = i)); auto.
Qed.

Lemma atIndex_ids i f l :
  (forall s, step_id (f s) = step_id s) ->
  step_id <$> atIndex i f l = step_id <$> l.
Proof.
  intros Hf. apply list_eq. intros j.
  rewrite !list_lookup_fmap, atIndex_lookup.
  destruct (l !! j); cbn; [|done].
  destruct (decide (j = i)); by rewrite ?Hf.
Qed.

Lemma byId_length id f l : length (byId id f l) = length l.
Proof. unfold byId. by rewrite length_fmap. Qed.

Lemma byId_lookup id f l j :
  byId id f l !! j
  = (fun s => if decide (step_id s = id) then f s else s) <$> l !! j.
Proof. unfold byId. by rewrite list_lookup_fmap. Qed.

Lemma byId_Forall (P : FlowStep -> Prop) id f l :
  (forall s, P s -> P (f s)) -> Forall P l -> Forall P (byId id f l).
Proof.
  intros Hf Hl. unfold byId. apply Forall_fmap.
  eapply Forall_impl; [exact Hl|]. intros s Hs. cbn.
  destruct (decide (step_id s = id)); auto.
Qed.

Lemma byId_ids id f l :
  (forall s, step_id (f s) = step_id s) ->
  step_id <$> byId id f l = step_id <$> l.
Proof.
  intros Hf. unfold byId. rewrite <- list_fmap_compose.
  apply list_fmap_ext. intros j s _. cbn.
  destruct (decide (step_id s = id)); by rewrite ?Hf.
Qed.

Lemma byId_compose id f g l :
  (forall s, step_id (g s) = step_id s) ->
  byId id f (byId id g l) = byId id (fun s => f (g s)) l.
Proof.
  intros Hg. unfold byId. rewrite <- list_fmap_compose.
  apply list_fmap_ext. intros j s _. cbn.
  destruct (decide (step_id s = id)) as [He|Hne].
  - by rewrite decide_True by (by rewrite Hg).
  - by rewrite decide_False.
Qed.

(** ** The loop *)

Lemma loop_pass step rest i previousImage :
  needsGeneration step = false ->
  loop (step :: rest) i previousImage
  = loop rest (S i) (adopt previousImage step).
Proof.
  unfold needsGeneration, adopt. cbn [loop].
  destruct (Js.truthy (Js.trim (prompt step))); cbn [negb andb]; [|done].
  destruct (hasImage step); cbn [negb andb]; [|done].
  by destruct (bool_decide (status step = COMPLETED)).
Qed.

Lemma loop_generate step rest i previousImage :
  needsGeneration step = true ->
  loop (step :: rest) i previousImage = LoopAwait i step previousImage rest.
Proof.
  unfold needsGeneration. cbn [loop].
  destruct (Js.truthy (Js.trim (prompt step))); cbn [negb andb]; [|done].
  by destruct (hasImage step && bool_decide (status step = COMPLETED)).
Qed.

Lemma loop_await fromI : forall i previousImage i' step' previousImage' rest',
  loop fromI i previousImage = LoopAwait i' step' previousImage' rest' ->
  exists mid,
    fromI = mid ++ step' :: rest' /\ i' = i + length mid /\
    Forall (fun s => needsGeneration s = false) mid /\
    needsGeneration step' = true /\
    previousImage' = fold_left adopt mid previousImage.
Proof.
  induction fromI as [|step rest IH]; intros i p i' step' p' rest'; [done|].
  destruct (needsGeneration step) eqn:Hn.
  - rewrite loop_generate by done. intros [= <- <- <- <-].
    exists []. cbn. repeat split; auto with lia.
  - rewrite loop_pass by done. intros Hl.
    destruct (IH _ _ _ _ _ _ Hl) as (mid & -> & -> & Hmid & Hs & ->).
    exists (step :: mid). cbn. repeat split; auto with lia.
Qed.

Lemma adopt_no_image l previousImage :
  Forall (fun x => hasImage x = false) l ->
  fold_left adopt l previousImage = previousImage.
Proof.
  intros Hl. revert previousImage.
  induction Hl as [|x l Hx _ IH]; intros p; [done|].
  cbn. rewrite IH. unfold adopt. by rewrite Hx.
Qed.

(** The reference of a call for step [k], read off the list the walk
    started from: the image of the nearest earlier step [j] that holds
    one, when every step between them was passed over without an image. *)
Lemma reference_of_passed (snapshot : list FlowStep) k r before mid base j sp :
  take k snapshot = before ++ mid ->
  Forall (fun x => needsGeneration x = false) mid ->
  ((before = [] /\ base = None)
   \/ exists g, last before = Some g /\ needsGeneration g = true) ->
  r = fold_left adopt mid base ->
  j < k -> snapshot !! j = Some sp ->
  needsGeneration sp = false -> hasImage sp = true ->
  (forall m sm, j < m < k -> snapshot !! m = Some sm ->
                needsGeneration sm = false /\ hasImage sm = false) ->
  r = imageBase64 sp.
Proof.
  intros Htake Hmid Hbase -> Hjk Hj Hno Him Hbetween.
  assert (forall m x, (before ++ mid) !! m = Some x ->
                      snapshot !! m = Some x /\ m < k) as Hin.
  { intros m x. rewrite <- Htake. apply lookup_take_Some. }
  assert (length before <= j) as Hle.
  { destruct (decide (length before <= j)) as [|Hlt]; [done|exfalso].
    destruct Hbase as [[-> _]|(g & Hlast & Hg)]; [cbn in Hlt; lia|].
    rewrite last_lookup in Hlast.
    destruct (Hin (pred (length before)) g) as [Hm Hmk].
    { rewrite lookup_app_l; [done|lia]. }
    destruct (decide (j = pred (length before))) as [->|Hne].
    - congruence.
    - assert (j < pred (length before) < k) as Hrange by lia.
      destruct (Hbetween _ g Hrange Hm). congruence. }
  assert (mid !! (j - length before) = Some sp) as Hsp.
  { assert ((before ++ mid) !! j = Some sp) as H.
    { rewrite <- Htake. apply lookup_take_Some. by split. }
    by rewrite lookup_app_r in H. }
  rewrite <- (take_drop_middle _ _ _ Hsp), fold_left_app. cbn.
  rewrite adopt_no_image.
  - unfold adopt. by rewrite Him.
  - apply Forall_lookup. intros q x Hq. rewrite lookup_drop in Hq.
    destruct (Hin (length before + (S (j - length before) + q)) x) as [Hm Hmk].
    { rewrite lookup_app_r by lia. rewrite <- Hq. f_equal. lia. }
    assert (j < length before + (S (j - length before) + q) < k) as Hrange
      by lia.
    by destruct (Hbetween _ x Hrange Hm).
Qed.

(** ** Every reachable state is well formed *)

Lemma goodPatch_keep f :
  (forall s, step_id (f s) = step_id s) ->
  (forall s, imageBase64 (f s) = imageBase64 s) ->
  goodPatch f.
Proof.
  intros Hid Him. split; [done|]. intros s Hs image. rewrite Him. apply Hs.
Qed.

Lemma goodPatch_store f image :
  (forall s, step_id (f s) = step_id s) ->
  (forall s, imageBase64 (f s) = Some image) ->
  Js.truthy image = true ->
  goodPatch f.
Proof.
  intros Hid Him Ht. split; [done|]. intros s _ image'. rewrite Him.
  by intros [= <-].
Qed.

Lemma storeOk_atIndex i f l : goodPatch f -> storeOk l -> storeOk (atIndex i f l).
Proof.
  intros [Hid Him] (H1 & H2 & H3). split; [|split].
  - by apply atIndex_Forall.
  - by rewrite atIndex_ids.
  - by rewrite atIndex_length.
Qed.

Lemma storeOk_byId id f l : goodPatch f -> storeOk l -> storeOk (byId id f l).
Proof.
  intros [Hid Him] (H1 & H2 & H3). split; [|split].
  - by apply byId_Forall.
  - by rewrite byId_ids.
  - by rewrite byId_length.
Qed.

Lemma filter_other_all id (l : list FlowStep) :
  id ∉ step_id <$> l -> filter (fun s => step_id s <> id) l = l.
Proof.
  induction l as [|y l IH]; [done|].
  rewrite fmap_cons, not_elem_of_cons. intros [Hy Hl].
  rewrite filter_cons_True by done. f_equal. by apply IH.
Qed.

Lemma filter_other_length id (l : list FlowStep) :
  NoDup (step_id <$> l) ->
  length l <= S (length (filter (fun s => step_id s <> id) l)).
Proof.
  induction l as [|x l IH]; [cbn; lia|].
  rewrite fmap_cons, NoDup_cons. intros [Hx Hnd].
  destruct (decide (step_id x = id)) as [<-|Hne].
  - rewrite filter_cons_False by (intros Hc; by apply Hc).
    rewrite filter_other_all by done. cbn. lia.
  - rewrite filter_cons_True by done. specialize (IH Hnd). cbn. lia.
Qed.

Lemma storeOk_filter id l :
  ~ length l <= 1 -> storeOk l ->
  storeOk (filter (fun s => step_id s <> id) l).
Proof.
  intros Hlen (H1 & H2 & H3). split; [|split].
  - apply Forall_forall. intros x [_ Hx]%list_elem_of_filter.
    unfold imagesTruthy in H1. rewrite Forall_forall in H1. by apply H1.
  - eapply sublist_NoDup; [exact H2|apply fmap_sublist, sublist_filter].
  - pose proof (filter_other_length id l H2). lia.
Qed.

Lemma storeOk_add uuid l :
  uuid ∉ step_id <$> l -> storeOk l -> storeOk (l ++ [newStep uuid]).
Proof.
  intros Hfresh (H1 & H2 & H3). split; [|split].
  - apply Forall_app. split; [done|]. by apply Forall_singleton.
  - rewrite fmap_app. cbn. apply NoDup_app. split; [done|]. split.
    + intros x Hx Hin. apply list_elem_of_singleton in Hin. by subst.
    + apply NoDup_singleton.
  - rewrite length_app. cbn. lia.
Qed.

Lemma wellFormed_storeOk w : wellFormed w -> storeOk (steps w).
Proof. intros [? ? ? ?]. by repeat split. Qed.

Lemma wellFormed_intro w :
  storeOk (steps w) ->
  ((isProcessing w = true /\ length (walks w) = 1)
   \/ (isProcessing w = false /\ walks w = [])) ->
  wellFormed w.
Proof. intros (? & ? & ?) ?. by constructor. Qed.

Lemma wellFormed_initial uuid : wellFormed (initial uuid).
Proof.
  apply wellFormed_intro; [|by right].
  split; [|split]; cbn; [|apply NoDup_singleton|lia].
  by apply Forall_singleton.
Qed.

Lemma goodPatch_markGenerating : goodPatch markGenerating.
Proof. by apply goodPatch_keep. Qed.

Lemma goodPatch_markError message : goodPatch (markError message).
Proof. by apply goodPatch_keep. Qed.

Lemma goodPatch_markUpscaling : goodPatch markUpscaling.
Proof. by apply goodPatch_keep. Qed.

Lemma goodPatch_resetCompleted : goodPatch resetCompleted.
Proof. by apply goodPatch_keep. Qed.

Lemma goodPatch_upscaleFailed : goodPatch upscaleFailed.
Proof. by apply goodPatch_keep. Qed.

Lemma goodPatch_withPrompt p : goodPatch (withPrompt p).
Proof. by apply goodPatch_keep. Qed.

Lemma wellFormed_continueWalk w ratio r :
  storeOk (steps w) -> walks w = [] ->
  (r <> LoopEnd -> isProcessing w = true) ->
  wellFormed (continueWalk w ratio r).
Proof.
  intros Hs Hw Hp. destruct r as [|i step p rest]; cbn.
  - apply wellFormed_intro; cbn; [done|]. by right.
  - apply wellFormed_intro; cbn.
    + apply storeOk_atIndex; [apply goodPatch_markGenerating|done].
    + left. rewrite Hw. split; [by apply Hp|done].
Qed.

Lemma wellFormed_dispatch w e :
  wellFormed w -> admissible w e -> wellFormed (dispatch w e).
Proof.
  intros Hwf Hadm. pose proof (wellFormed_storeOk _ Hwf) as Hs.
  pose proof (wf_flight _ Hwf) as Hfl.
  destruct e as [uuid|id|id p|ratio| |id|k sdk|k env|k|k]; cbn.
  - apply wellFormed_intro; cbn; [by apply storeOk_add|done].
  - unfold removeStep. destruct (decide (length (steps w) <= 1)); [done|].
    apply wellFormed_intro; cbn; [by apply storeOk_filter|done].
  - apply wellFormed_intro; cbn; [|done].
    apply storeOk_byId; [apply goodPatch_withPrompt|done].
  - by apply wellFormed_intro.
  - unfold generateImages. destruct (isProcessing w) eqn:Hp; [done|].
    destruct Hfl as [[? _]|[_ Hw]]; [done|].
    by apply wellFormed_continueWalk.
  - unfold handleUpscale. destruct (findStep id (steps w)) as [step|]; [|done].
    destruct (imageBase64 step) as [image|]; [|done].
    destruct (negb _ || _); [done|].
    apply wellFormed_intro; cbn; [|done].
    apply storeOk_byId; [apply goodPatch_markUpscaling|done].
  - unfold generateSettled. destruct (walks w !! k) as [t|] eqn:Hk; [|done].
    destruct Hfl as [[Hp Hlen]|[_ Hw]]; [|by rewrite Hw in Hk].
    destruct (walks w) as [|t0 [|? ?]] eqn:Hw; try done.
    destruct k as [|k]; [|done]. cbn in Hk. injection Hk as ->.
    destruct (generateFlowImage sdk) as [image|message] eqn:Hg.
    + apply wellFormed_continueWalk; cbn; [|done..].
      apply storeOk_atIndex; [|done].
      apply goodPatch_store with image; try done.
      by eapply generateFlowImage_truthy.
    + apply wellFormed_intro; cbn; [|by right].
      apply storeOk_atIndex; [apply goodPatch_markError|done].
  - unfold upscaleSettled.
    destruct (upscales w !! k) as [[id|id]|]; try done.
    destruct (upscaleFlowImage env) as [image|message] eqn:Hu.
    + apply wellFormed_intro; cbn; [|done].
      apply storeOk_byId; [|done].
      apply goodPatch_store with image; try done.
      by eapply upscaleFlowImage_truthy.
    + destruct (_ || _); apply wellFormed_intro; cbn; try done.
      apply storeOk_byId; [apply goodPatch_upscaleFailed|done].
  - unfold keySelectionSettled.
    destruct (upscales w !! k) as [[id|id]|]; try done.
    apply wellFormed_intro; cbn; [|done].
    apply storeOk_byId; [apply goodPatch_resetCompleted|done].
  - unfold keySelectionFailed.
    destruct (upscales w !! k) as [[id|id]|]; try done.
    by apply wellFormed_intro.
Qed.

Lemma reachable_wellFormed w : reachable w -> wellFormed w.
Proof.
  induction 1 as [uuid|w e _ IH Hadm].
  - apply wellFormed_initial.
  - by apply wellFormed_dispatch.
Qed.

(** ** One walk, followed from its start *)

Lemma walkCall_mono snapshot ratio n n' c :
  n <= n' -> walkCall snapshot ratio n c -> walkCall snapshot ratio n' c.
Proof.
  intros Hle. destruct c as [k p r a| |]; cbn; [|done..].
  intros (Hk & Ha & Hs). split; [lia|done].
Qed.

Lemma untouched_atIndex snapshot live n n' i f s :
  untouched snapshot live n ->
  snapshot !! i = Some s -> needsGeneration s = true -> i < n' -> n <= n' ->
  untouched snapshot (atIndex i f live) n'.
Proof.
  intros [Hlen Hun] Hi Hs Hlt Hle. split; [by rewrite atIndex_length|].
  intros j s' Hj Hor. rewrite atIndex_lookup_ne.
  - apply Hun; [done|]. destruct Hor; [left; lia|by right].
  - intros ->. rewrite Hi in Hj. injection Hj as <-.
    destruct Hor as [?|Hno]; [lia|congruence].
Qed.

Lemma walkInv_intro w0 w n new :
  aspectRatio w = aspectRatio w0 -> upscales w = upscales w0 ->
  calls w = calls w0 ++ new ->
  Forall (walkCall (steps w0) (aspectRatio w0) n) new ->
  untouched (steps w0) (steps w) n ->
  walkState (steps w0) (aspectRatio w0) n w ->
  walkInv w0 w n.
Proof. intros. repeat (split; [done|]). split; [by exists new|done]. Qed.

(** The step shared by starting a walk and resuming one: from the top of
    iteration [n], with the list [wm] holds at that moment. *)
Lemma walkInv_continue w0 wm n pre rest previousImage new :
  aspectRatio wm = aspectRatio w0 ->
  upscales wm = upscales w0 ->
  calls wm = calls w0 ++ new ->
  Forall (walkCall (steps w0) (aspectRatio w0) n) new ->
  untouched (steps w0) (steps wm) n ->
  walks wm = [] ->
  isProcessing wm = true ->
  steps w0 = pre ++ rest -> length pre = n ->
  ((pre = [] /\ previousImage = None)
   \/ exists g, last pre = Some g /\ needsGeneration g = true) ->
  let w' := continueWalk wm (aspectRatio w0) (loop rest n previousImage) in
  exists n', n <= n' /\ walkInv w0 w' n' /\ (walks w' <> [] -> n < n').
Proof.
  intros Har Hup Hcalls Hnew Hun Hwalks Hproc Hsnap Hpre Hprev.
  destruct (loop rest n previousImage) as [|i' step' p' rest'] eqn:Hloop; cbn.
  - exists n. split; [done|]. split; [|done].
    apply walkInv_intro with new; try done. by left.
  - apply loop_await in Hloop as (mid & -> & -> & Hmid & Hneed & ->).
    set (i' := n + length mid).
    assert (steps w0 !! i' = Some step') as Hi'.
    { rewrite Hsnap, app_assoc. apply list_lookup_middle.
      rewrite length_app. lia. }
    exists (S i'). split; [lia|]. split; [|lia].
    apply walkInv_intro with
      (new ++ [CallGenerate i' (prompt step')
                 (fold_left adopt mid previousImage) (aspectRatio w0)]);
      try done.
    + cbn. by rewrite Hcalls, app_assoc.
    + apply Forall_app. split.
      { eapply Forall_impl; [exact Hnew|]. intros c.
        apply walkCall_mono. lia. }
      apply Forall_singleton. cbn. split; [lia|]. split; [done|].
      exists step'. split; [done|]. split; [done|]. split; [done|].
      exists pre, mid, previousImage. split; [|done].
      rewrite Hsnap, app_assoc. apply take_app_length'.
      rewrite length_app. subst i'. lia.
    + cbn. eapply untouched_atIndex; eauto. lia.
    + right. exists (mkWalk i' step' rest' (fold_left adopt mid previousImage)
                            (aspectRatio w0)), (pre ++ mid).
      cbn. rewrite Hwalks. repeat split; try done.
      * by rewrite Hsnap, <- app_assoc.
      * rewrite length_app. subst i'. lia.
      * apply atIndex_lookup_eq. destruct Hun as [_ Hun].
        apply Hun; [done|]. left. subst i'. lia.
Qed.

Lemma walkInv_start w0 :
  isProcessing w0 = false -> walks w0 = [] ->
  exists n, walkInv w0 (generateImages w0) n.
Proof.
  intros Hp Hw. unfold generateImages. rewrite Hp.
  destruct (walkInv_continue w0
    (mkWorld (steps w0) true (aspectRatio w0) (walks w0) (upscales w0)
             (calls w0)) 0 [] (steps w0) None [])
    as (n & _ & Hinv & _); cbn; try done.
  - by rewrite app_nil_r.
  - by left.
  - by exists n.
Qed.

Lemma generateSettled_idle k sdk w :
  walks w = [] -> generateSettled k sdk w = w.
Proof. intros Hw. unfold generateSettled. by rewrite Hw. Qed.

Lemma walkInv_settle w0 w n sdk :
  walkInv w0 w n ->
  let w' := generateSettled 0 sdk w in
  exists n', n <= n' /\ walkInv w0 w' n'
             /\ (walks w <> [] -> walks w' <> [] -> n < n').
Proof.
  intros (Har & Hup & (new & Hcalls & Hnew) & Hun & Hst).
  destruct Hst as [[Hw Hp]|(t & pre & Hw & Hp & Hn & Hr & Hsnap & Hpre
                            & Hneed & Hlive)].
  { cbn. rewrite generateSettled_idle by done. exists n.
    split; [done|]. split; [|done].
    apply walkInv_intro with new; try done. by left. }
  assert (steps w0 !! walk_index t = Some (walk_step t)) as Hi.
  { rewrite Hsnap. by apply list_lookup_middle. }
  subst n. cbn. unfold generateSettled. rewrite Hw. cbn.
  destruct (generateFlowImage sdk) as [image|message].
  - rewrite Hr.
    destruct (walkInv_continue w0
      (mkWorld (atIndex (walk_index t) (storeGenerated image) (steps w))
               (isProcessing w) (aspectRatio w) [] (upscales w) (calls w))
      (S (walk_index t)) (pre ++ [walk_step t]) (walk_rest t) (Some image) new)
      as (n' & Hle & Hinv & Hlt); cbn; try done.
    + eapply untouched_atIndex; eauto; lia.
    + by rewrite <- app_assoc.
    + rewrite length_app. cbn. lia.
    + right. exists (walk_step t). by rewrite last_snoc.
    + exists n'. by auto.
  - exists (S (walk_index t)). split; [done|]. split; [|done].
    apply walkInv_intro with new; cbn; try done.
    + eapply untouched_atIndex; eauto; lia.
    + by left.
Qed.

Lemma run_settle_idle w sdks :
  walks w = [] -> run w (GenerateSettled 0 <$> sdks) = w.
Proof.
  intros Hw. induction sdks as [|sdk sdks IH]; [done|].
  cbn. by rewrite generateSettled_idle.
Qed.

Lemma walkInv_run w0 sdks : forall w n,
  walkInv w0 w n -> exists n', walkInv w0 (run w (GenerateSettled 0 <$> sdks)) n'.
Proof.
  induction sdks as [|sdk sdks IH]; intros w n Hinv; [by exists n|].
  destruct (walkInv_settle w0 w n sdk Hinv) as (n' & _ & Hinv' & _).
  cbn. by eapply IH.
Qed.

Lemma walkInv_runFlow w0 sdks :
  isProcessing w0 = false -> walks w0 = [] ->
  exists n, walkInv w0 (runFlow w0 sdks) n.
Proof.
  intros Hp Hw. destruct (walkInv_start w0 Hp Hw) as (n & Hinv).
  by eapply walkInv_run.
Qed.

Lemma runFlow_snoc w0 sdks sdk :
  runFlow w0 (sdks ++ [sdk]) = generateSettled 0 sdk (runFlow w0 sdks).
Proof. unfold runFlow, run. by rewrite fmap_app, fold_left_app. Qed.

Lemma walkInv_bound w0 w n :
  walkInv w0 w n -> walks w <> [] -> 1 <= n <= length (steps w0).
Proof.
  intros (_ & _ & _ & _ & [[Hw _]|(t & pre & _ & _ & -> & _ & Hsnap & Hpre & _)]).
  - done.
  - intros _. rewrite Hsnap, length_app. cbn. lia.
Qed.

(** A walk ends once the service has answered as many times as there are
    steps. *)
Lemma walk_ends w0 sdks : forall w n,
  walkInv w0 w n -> length (steps w0) < n + length sdks ->
  walks (run w (GenerateSettled 0 <$> sdks)) = [].
Proof.
  induction sdks as [|sdk sdks IH]; intros w n Hinv Hlen.
  - destruct (walks w) eqn:Hw; [done|].
    pose proof (walkInv_bound _ _ _ Hinv). rewrite Hw in H. cbn in Hlen.
    assert (1 <= n <= length (steps w0)) by (by apply H). lia.
  - destruct (walkInv_settle w0 w n sdk Hinv) as (n' & Hle & Hinv' & Hlt).
    change (run w (GenerateSettled 0 <$> sdk :: sdks))
      with (run (generateSettled 0 sdk w) (GenerateSettled 0 <$> sdks)).
    cbn [length] in Hlen. cbv zeta in Hlt.
    destruct (walks (generateSettled 0 sdk w)) eqn:Hw'.
    + by rewrite run_settle_idle.
    + apply (IH _ n' Hinv').
      assert (n < n'); [|lia]. apply Hlt; [|done].
      intros Hw. rewrite generateSettled_idle in Hw' by done. congruence.
Qed.

Lemma runFlow_app w0 sdks more :
  runFlow w0 (sdks ++ more) = run (runFlow w0 sdks) (GenerateSettled 0 <$> more).
Proof. unfold runFlow, run. by rewrite fmap_app, fold_left_app. Qed.

Lemma untouched_lookup snapshot live n j :
  untouched snapshot live n -> n <= j -> live !! j = snapshot !! j.
Proof.
  intros [Hlen Hun] Hle. destruct (snapshot !! j) as [s|] eqn:Hj.
  - apply Hun; auto.
  - apply lookup_ge_None. apply lookup_ge_None in Hj. lia.
Qed.

(** The state a walk is in when it is suspended on step [walk_index t], and
    the state the failure of that call leaves. *)
Lemma failure_state w0 sdks sdk t message :
  idle w0 ->
  walks (runFlow w0 sdks) = [t] ->
  generateFlowImage sdk = RejectedWith message ->
  let w := runFlow w0 sdks in
  let i := walk_index t in
  runFlow w0 (sdks ++ [sdk])
  = mkWorld (atIndex i (markError message) (steps w)) false (aspectRatio w)
            [] (upscales w) (calls w)
  /\ steps w0 !! i = Some (walk_step t)
  /\ steps w !! i = Some (markGenerating (walk_step t))
  /\ untouched (steps w0) (steps w) (S i)
  /\ exists new, calls w = calls w0 ++ new
                 /\ Forall (walkCall (steps w0) (aspectRatio w0) (S i)) new.
Proof.
  intros [Hp Hw0] Hw Hrej. cbv zeta.
  destruct (walkInv_runFlow w0 sdks Hp Hw0)
    as (n & _ & _ & Hcalls & Hun & Hst).
  destruct Hst as [[Hnil _]|(t' & pre & Hw' & _ & -> & _ & Hsnap & Hpre
                             & _ & Hlive)]; [congruence|].
  rewrite Hw in Hw'. injection Hw' as <-.
  split; [|split; [|done]].
  - rewrite runFlow_snoc. unfold generateSettled. rewrite Hw. cbn.
    by rewrite Hrej.
  - rewrite Hsnap. by apply list_lookup_middle.
Qed.

(** What one walk leaves of a step its loop passes over. *)
Lemma passed_over w0 j s sdks :
  idle w0 -> steps w0 !! j = Some s -> needsGeneration s = false ->
  steps (runFlow w0 sdks) !! j = Some s
  /\ exists new,
       calls (runFlow w0 sdks) = calls w0 ++ new
       /\ forall c, c ∈ new ->
            exists k p r a,
              c = CallGenerate k p r a /\ k <> j
              /\ (j < k -> hasImage s = true ->
                  (forall m sm, j < m < k -> steps w0 !! m = Some sm ->
                     needsGeneration sm = false /\ hasImage sm = false) ->
                  r = imageBase64 s).
Proof.
  intros [Hp Hw0] Hj Hno.
  destruct (walkInv_runFlow w0 sdks Hp Hw0)
    as (n & _ & _ & (new & Hcalls & Hnew) & [_ Hun] & _).
  split; [apply Hun; auto|].
  exists new. split; [done|]. intros c Hc.
  rewrite Forall_forall in Hnew. specialize (Hnew c Hc).
  destruct c as [k p r a| |]; cbn in Hnew; [|done..].
  destruct Hnew as (_ & _ & sk & Hk & Hneed & _ & before & mid & base
                    & Htake & Hmid & Hbase & Hr).
  exists k, p, r, a. split; [done|]. split.
  - intros ->. congruence.
  - intros Hjk Him Hbetween. by eapply reference_of_passed.
Qed.

(** * The claims *)

(** The update a walk makes when its call is rejected, in any state. *)
Lemma generateSettled_rejected w k t sdk message :
  walks w !! k = Some t ->
  generateFlowImage sdk = RejectedWith message ->
  generateSettled k sdk w
  = mkWorld (atIndex (walk_index t) (markError message) (steps w)) false
            (aspectRatio w) (delete k (walks w)) (upscales w) (calls w).
Proof. intros Hk Hrej. unfold generateSettled. by rewrite Hk, Hrej. Qed.

(** A failed call and the walk.  In any state, when the generate call a
    walk awaits in iteration [i] fails with some message, the walk marks
    the step at index [i] of the list with status [ERROR] and that message,
    clears the flag, makes no call and leaves nothing of itself suspended.
    For a walk left alone (nothing else happens between its start and the
    failure) this means: step [i] ends in [ERROR] with the message in its
    [error] field; the walk is over at once (later answers change nothing);
    no call was made for a step after [i]; and every step after [i] is what
    it was when the walk started. *)
Theorem generation_failure_ends_walk sdk message :
  generateFlowImage sdk = RejectedWith message ->
  (forall w k t,
     walks w !! k = Some t ->
     dispatch w (GenerateSettled k sdk)
     = mkWorld (atIndex (walk_index t) (markError message) (steps w)) false
               (aspectRatio w) (delete k (walks w)) (upscales w) (calls w))
  /\ forall w0 sdks t,
       idle w0 -> walks (runFlow w0 sdks) = [t] ->
       let i := walk_index t in
       let w' := runFlow w0 (sdks ++ [sdk]) in
       (exists s, steps w' !! i = Some s /\ status s = ERROR
                  /\ error s = Some message)
       /\ walks w' = [] /\ isProcessing w' = false
       /\ calls w' = calls (runFlow w0 sdks)
       /\ (forall more, runFlow w0 (sdks ++ sdk :: more) = w')
       /\ (exists new, calls w' = calls w0 ++ new
                       /\ forall k p r a,
                            CallGenerate k p r a ∈ new -> k <= i)
       /\ (forall j, i < j -> steps w' !! j = steps w0 !! j).
Proof.
  intros Hrej. split.
  { intros w k t Hk. cbn [dispatch]. by apply generateSettled_rejected. }
  intros w0 sdks t Hidle Hw. cbv zeta.
  destruct (failure_state w0 sdks sdk t message Hidle Hw Hrej)
    as (Heq & Hi & Hlive & Hun & new & Hcalls & Hnew).
  assert (walks (runFlow w0 (sdks ++ [sdk])) = []) as Hend by (by rewrite Heq).
  split; [|split; [done|split; [by rewrite Heq|split; [by rewrite Heq|]]]].
  { exists (markError message (markGenerating (walk_step t))).
    rewrite Heq. cbn. split; [by apply atIndex_lookup_eq|done]. }
  split; [|split].
  - intros more.
    change (sdk :: more) with ([sdk] ++ more).
    by rewrite app_assoc, runFlow_app, run_settle_idle.
  - exists new. rewrite Heq. cbn. split; [done|].
    intros k p r a Hin. rewrite Forall_forall in Hnew.
    destruct (Hnew _ Hin) as [Hk _]. lia.
  - intros j Hlt. rewrite Heq. cbn.
    rewrite atIndex_lookup_ne by lia.
    eapply untouched_lookup; [exact Hun|lia].
Qed.

(** C10.  When generation fails for a step during a walk, the update the
    walk makes gives the step at its index status [ERROR] and the message
    as [error], and changes nothing else: image, [isUpscaled], identifier
    and prompt of that step stay, and so does every other step.  For a walk
    left alone the step is then the one the walk started from, with that
    status and that error. *)
Theorem generation_failure_keeps_image sdk message :
  generateFlowImage sdk = RejectedWith message ->
  (forall w k t j s,
     walks w !! k = Some t -> steps w !! j = Some s ->
     exists s',
       steps (dispatch w (GenerateSettled k sdk)) !! j = Some s'
       /\ imageBase64 s' = imageBase64 s /\ isUpscaled s' = isUpscaled s
       /\ step_id s' = step_id s /\ prompt s' = prompt s
       /\ (j = walk_index t -> status s' = ERROR /\ error s' = Some message)
       /\ (j <> walk_index t -> s' = s))
  /\ forall w0 sdks t,
       idle w0 -> walks (runFlow w0 sdks) = [t] ->
       exists before after,
         steps w0 !! walk_index t = Some before
         /\ steps (runFlow w0 (sdks ++ [sdk])) !! walk_index t = Some after
         /\ after = mkStep (step_id before) (prompt before) ERROR
                           (imageBase64 before) (isUpscaled before)
                           (Some message).
Proof.
  intros Hrej. split.
  - intros w k t j s Hk Hj. cbn [dispatch].
    rewrite (generateSettled_rejected _ _ _ _ _ Hk Hrej). cbn [steps].
    rewrite atIndex_lookup, Hj. cbn.
    destruct (decide (j = walk_index t)); eexists; repeat split; done.
  - intros w0 sdks t Hidle Hw.
    destruct (failure_state w0 sdks sdk t message Hidle Hw Hrej)
      as (Heq & Hi & Hlive & _).
    exists (walk_step t), (markError message (markGenerating (walk_step t))).
    split; [done|]. split; [|done].
    rewrite Heq. cbn. by apply atIndex_lookup_eq.
Qed.

Lemma reachable_idle w : reachable w -> isProcessing w = false -> idle w.
Proof.
  intros Hr Hp. split; [done|].
  destruct (wf_flight _ (reachable_wellFormed _ Hr)) as [[? _]|[_ ?]];
    [congruence|done].
Qed.

Lemma reachable_hasImage w j s image :
  reachable w -> steps w !! j = Some s -> imageBase64 s = Some image ->
  hasImage s = true.
Proof.
  intros Hr Hj Him. unfold hasImage. rewrite Him. cbn.
  pose proof (wf_images _ (reachable_wellFormed _ Hr)) as Hall.
  by apply (Forall_lookup_1 _ _ _ _ Hall Hj).
Qed.

(** A completed step and a walk left alone.  A step that is [COMPLETED]
    and has an image when a walk starts is passed over by the loop, which
    takes the step's image as its [previousImage]; a walk that is left
    alone makes no generate call for it and leaves it as it is; and the
    next call the walk makes after it carries its image as reference (the
    steps passed over in between having no image of their own to put in
    its place). *)
Theorem completed_step_is_memoized w0 j s image :
  reachable w0 -> isProcessing w0 = false ->
  steps w0 !! j = Some s -> status s = COMPLETED ->
  imageBase64 s = Some image ->
  (forall rest i previousImage,
     loop (s :: rest) i previousImage = loop rest (S i) (Some image))
  /\ forall sdks,
       steps (runFlow w0 sdks) !! j = Some s
       /\ exists new,
            calls (runFlow w0 sdks) = calls w0 ++ new
            /\ forall c, c ∈ new ->
                 exists k p r a,
                   c = CallGenerate k p r a /\ k <> j
                   /\ (j < k ->
                       (forall m sm, j < m < k -> steps w0 !! m = Some sm ->
                          needsGeneration sm = false /\ hasImage sm = false) ->
                       r = Some image).
Proof.
  intros Hr Hp Hj Hst Him.
  pose proof (reachable_hasImage _ _ _ _ Hr Hj Him) as Hhas.
  assert (needsGeneration s = false) as Hno.
  { unfold needsGeneration. rewrite Hhas, Hst. cbn. apply andb_false_r. }
  split.
  - intros rest i p. rewrite loop_pass by done. unfold adopt.
    by rewrite Hhas, Him.
  - intros sdks.
    destruct (passed_over w0 j s sdks (reachable_idle _ Hr Hp) Hj Hno)
      as (Hsame & new & Hcalls & Hnew).
    split; [done|]. exists new. split; [done|]. intros c Hc.
    destruct (Hnew c Hc) as (k & p & r & a & -> & Hne & Href).
    exists k, p, r, a. split; [done|]. split; [done|].
    intros Hk Hbetween. rewrite <- Him. by apply Href.
Qed.

(** A blank step and a walk left alone.  A step whose prompt is empty or
    white space only is passed over by the loop: when it holds an image,
    that image becomes [previousImage], otherwise [previousImage] stays what
    it was; a walk that is left alone makes no call for the step and leaves
    it as it is; and when the step holds an image, the next call the walk
    makes after it carries that image as reference (the steps passed over
    in between having no image of their own). *)
Theorem blank_prompt_is_skipped w0 j s :
  reachable w0 -> isProcessing w0 = false ->
  steps w0 !! j = Some s -> Js.whitespace_only (prompt s) = true ->
  (forall rest i previousImage,
     loop (s :: rest) i previousImage
     = loop rest (S i)
            match imageBase64 s with
            | Some image => Some image
            | None => previousImage
            end)
  /\ forall sdks,
       steps (runFlow w0 sdks) !! j = Some s
       /\ exists new,
            calls (runFlow w0 sdks) = calls w0 ++ new
            /\ forall c, c ∈ new ->
                 exists k p r a,
                   c = CallGenerate k p r a /\ k <> j
                   /\ forall image,
                        imageBase64 s = Some image -> j < k ->
                        (forall m sm, j < m < k -> steps w0 !! m = Some sm ->
                           needsGeneration sm = false
                           /\ hasImage sm = false) ->
                        r = Some image.
Proof.
  intros Hr Hp Hj Hblank.
  assert (needsGeneration s = false) as Hno.
  { unfold needsGeneration. by rewrite trim_truthy, Hblank. }
  split.
  - intros rest i p. rewrite loop_pass by done. unfold adopt.
    destruct (imageBase64 s) as [image|] eqn:Him.
    + by rewrite (reachable_hasImage _ _ _ _ Hr Hj Him).
    + unfold hasImage. by rewrite Him.
  - intros sdks.
    destruct (passed_over w0 j s sdks (reachable_idle _ Hr Hp) Hj Hno)
      as (Hsame & new & Hcalls & Hnew).
    split; [done|]. exists new. split; [done|]. intros c Hc.
    destruct (Hnew c Hc) as (k & p & r & a & -> & Hne & Href).
    exists k, p, r, a. split; [done|]. split; [done|].
    intros image Him Hk Hbetween. rewrite <- Him. apply Href; try done.
    by eapply reachable_hasImage.
Qed.

Lemma walk_over_flag w0 sdks :
  idle w0 -> walks (runFlow w0 sdks) = [] ->
  isProcessing (runFlow w0 sdks) = false.
Proof.
  intros [Hp Hw0] Hw.
  destruct (walkInv_runFlow w0 sdks Hp Hw0) as (n & _ & _ & _ & _ & Hst).
  destruct Hst as [[_ ?]|(t & pre & Hw' & _)]; [done|congruence].
Qed.

Lemma walk_over_eventually w0 sdks :
  idle w0 -> length (steps w0) <= length sdks -> walks (runFlow w0 sdks) = [].
Proof.
  intros [Hp Hw0] Hlen. destruct (walkInv_start w0 Hp Hw0) as (n & Hinv).
  unfold runFlow. destruct (walks (generateImages w0)) eqn:Hw.
  - by rewrite run_settle_idle.
  - apply (walk_ends w0 sdks _ n Hinv).
    assert (1 <= n <= length (steps w0)); [|lia].
    apply (walkInv_bound _ _ _ Hinv). by rewrite Hw.
Qed.

Lemma walk_over_on_error w0 sdks sdk message :
  idle w0 -> generateFlowImage sdk = RejectedWith message ->
  walks (runFlow w0 (sdks ++ [sdk])) = [].
Proof.
  intros [Hp Hw0] Hrej. rewrite runFlow_snoc.
  destruct (walkInv_runFlow w0 sdks Hp Hw0) as (n & _ & _ & _ & _ & Hst).
  destruct Hst as [[Hw _]|(t & pre & Hw & _)].
  - by rewrite generateSettled_idle.
  - unfold generateSettled. rewrite Hw. cbn. by rewrite Hrej.
Qed.

(** C5.  In every reachable state the flag [isProcessing] is set exactly
    while a walk is suspended, and there is at most one such walk; calling
    [generateImages] then changes nothing at all (no step, no call).  The
    flag is clear as soon as the walk is gone, whatever event ended it; a
    walk left alone is gone, with the flag clear, once the service has
    answered as many times as there are steps, and at once when the
    answer is a failure. *)
Theorem runFlow_single_flight w :
  reachable w ->
  (walks w <> [] -> dispatch w GenerateImages = w)
  /\ (isProcessing w = true <-> walks w <> [])
  /\ length (walks w) <= 1
  /\ (forall e, admissible w e -> walks (dispatch w e) = [] ->
                isProcessing (dispatch w e) = false)
  /\ (walks w = [] ->
      forall sdks,
        (walks (runFlow w sdks) = [] -> isProcessing (runFlow w sdks) = false)
        /\ (length (steps w) <= length sdks -> walks (runFlow w sdks) = [])
        /\ (forall sdk message,
              generateFlowImage sdk = RejectedWith message ->
              walks (runFlow w (sdks ++ [sdk])) = []
              /\ isProcessing (runFlow w (sdks ++ [sdk])) = false)).
Proof.
  intros Hr. pose proof (wf_flight _ (reachable_wellFormed _ Hr)) as Hfl.
  split; [|split; [|split; [|split]]].
  - intros Hw. cbn. unfold generateImages.
    destruct Hfl as [[-> _]|[_ ?]]; done.
  - destruct Hfl as [[Hp Hlen]|[Hp Hw]].
    + split; [|done]. intros _ Hw. by rewrite Hw in Hlen.
    + split; [congruence|done].
  - destruct Hfl as [[_ ->]|[_ ->]]; cbn; lia.
  - intros e Hadm Hw.
    assert (reachable (dispatch w e)) as Hr' by (by constructor).
    destruct (wf_flight _ (reachable_wellFormed _ Hr')) as [[_ Hlen]|[? _]];
      [|done].
    by rewrite Hw in Hlen.
  - intros Hw sdks.
    assert (idle w) as Hidle.
    { split; [|done]. destruct Hfl as [[_ Hlen]|[? _]]; [|done].
      by rewrite Hw in Hlen. }
    split; [by apply walk_over_flag|]. split; [by apply walk_over_eventually|].
    intros sdk message Hrej.
    pose proof (walk_over_on_error w sdks sdk message Hidle Hrej).
    split; [done|]. by apply walk_over_flag.
Qed.

(** ** The upscale handler *)

Lemma findStep_None id l : id ∉ step_id <$> l -> findStep id l = None.
Proof.
  induction l as [|x l IH]; [done|].
  rewrite fmap_cons, not_elem_of_cons. intros [Hne Hl].
  unfold findStep. cbn. rewrite bool_decide_eq_false_2 by done. by apply IH.
Qed.

Lemma insert_last (l : list Upscale) x y :
  <[length l := x]> (l ++ [y]) = l ++ [x].
Proof.
  rewrite <- (Nat.add_0_r (length l)). by rewrite insert_app_r.
Qed.

Lemma byId_ext id f g l :
  (forall s, f s = g s) -> byId id f l = byId id g l.
Proof.
  intros Hfg. unfold byId. apply list_fmap_ext. intros j s _. cbn.
  by rewrite Hfg.
Qed.


Lemma handleUpscale_accepted w id step image :
  findStep id (steps w) = Some step ->
  imageBase64 step = Some image -> Js.truthy image = true ->
  status step <> UPSCALING ->
  handleUpscale id w
  = mkWorld (byId id markUpscaling (steps w)) (isProcessing w) (aspectRatio w)
            (walks w) (upscales w ++ [AwaitUpscale id])
            (calls w ++ [CallUpscale (prompt step) image (aspectRatio w)]).
Proof.
  intros Hf Him Ht Hst. unfold handleUpscale. rewrite Hf, Him, Ht.
  by rewrite bool_decide_eq_false_2.
Qed.




(** C7.  [handleUpscale(id)] changes nothing (no step, no call, nothing
    pending, no error recorded) when no step has that identifier, or when
    the step found has no image or is already [UPSCALING]. *)
Theorem upscale_refused w id :
  id ∉ step_id <$> steps w
  \/ (exists step, findStep id (steps w) = Some step
                   /\ (imageBase64 step = None \/ status step = UPSCALING)) ->
  dispatch w (HandleUpscale id) = w.
Proof.
  cbn. unfold handleUpscale. intros [Hno|(step & -> & [-> | Hst])].
  - by rewrite findStep_None.
  - done.
  - destruct (imageBase64 step); [|done].
    by rewrite Hst, bool_decide_eq_true_2, orb_true_r.
Qed.

(** C9.  When the upscale call of [handleUpscale(id)] succeeds, the update
    gives every step with that identifier status [COMPLETED], the upscaled
    image and [isUpscaled = true], and leaves its [error] field (and every
    other step) as it was: an error message left by an earlier failed
    attempt stays. *)
Theorem upscale_success_keeps_error w k id env image :
  upscales w !! k = Some (AwaitUpscale id) ->
  upscaleFlowImage env = Fulfilled image ->
  let w' := dispatch w (UpscaleSettled k env) in
  steps w' = byId id (storeUpscaled image) (steps w)
  /\ calls w' = calls w
  /\ forall j s, steps w !! j = Some s ->
       exists s', steps w' !! j = Some s'
                  /\ error s' = error s
                  /\ (step_id s = id ->
                      s' = mkStep (step_id s) (prompt s) COMPLETED (Some image)
                                  (Some true) (error s))
                  /\ (step_id s <> id -> s' = s).
Proof.
  intros Hk Hu. cbn. unfold upscaleSettled. rewrite Hk, Hu. cbn.
  split; [done|]. split; [done|]. intros j s Hj.
  rewrite byId_lookup, Hj. cbn.
  destruct (decide (step_id s = id)); eexists; repeat split; done.
Qed.

(** ** Reachability of a given run *)

Lemma reachable_run events : forall w,
  reachable w -> allAdmissible w events = true -> reachable (run w events).
Proof.
  induction events as [|e rest IH]; intros w Hr Hall; [done|].
  cbn in Hall. apply andb_true_iff in Hall as [He Hrest].
  cbn. apply IH; [|done]. constructor; [done|].
  destruct e; cbn in *; try done. by apply bool_decide_eq_true in He.
Qed.

Lemma dispatch_length w e :
  (forall id, e <> RemoveStep id) ->
  length (steps w) <= length (steps (dispatch w e)).
Proof.
  intros Hne.
  destruct e as [uuid|id|id p|ratio| |id|k sdk|k env|k|k]; cbn; try done.
  - rewrite length_app. cbn. lia.
  - by destruct (Hne id).
  - by rewrite byId_length.
  - unfold generateImages. destruct (isProcessing w); [done|].
    destruct (loop _ _ _); cbn; [done|]. by rewrite atIndex_length.
  - unfold handleUpscale. destruct (findStep _ _) as [step|]; [|done].
    destruct (imageBase64 step); [|done].
    destruct (_ || _); cbn; [done|]. by rewrite byId_length.
  - unfold generateSettled. destruct (walks w !! k); [|done].
    destruct (generateFlowImage sdk); cbn; [|by rewrite atIndex_length].
    destruct (loop _ _ _); cbn; by rewrite !atIndex_length.
  - unfold upscaleSettled. destruct (upscales w !! k) as [[id|id]|]; try done.
    destruct (upscaleFlowImage env); cbn; [by rewrite byId_length|].
    destruct (_ || _); cbn; [done|]. by rewrite byId_length.
  - unfold keySelectionSettled.
    destruct (upscales w !! k) as [[id|id]|]; try done.
    cbn. by rewrite byId_length.
  - unfold keySelectionFailed.
    by destruct (upscales w !! k) as [[id|id]|].
Qed.

(** C8.  The flow always has a step: it starts with one; [addStep] adds
    one; [removeStep] changes nothing when there is exactly one; no other
    action shortens the list; and so every reachable state has at least
    one step. *)
Theorem at_least_one_step w :
  reachable w ->
  1 <= length (steps w)
  /\ (forall uuid, length (steps (initial uuid)) = 1)
  /\ (forall uuid,
        length (steps (dispatch w (AddStep uuid))) = S (length (steps w)))
  /\ (forall id, length (steps w) = 1 -> dispatch w (RemoveStep id) = w)
  /\ (forall e, (forall id, e <> RemoveStep id) ->
                length (steps w) <= length (steps (dispatch w e))).
Proof.
  intros Hr. split; [|split; [done|split; [|split]]].
  - apply (wf_nonempty _ (reachable_wellFormed _ Hr)).
  - intros uuid. cbn. rewrite length_app. cbn. lia.
  - intros id Hone. cbn. unfold removeStep. rewrite decide_True; [done|lia].
  - apply dispatch_length.
Qed.

(** ** Entering and leaving [UPSCALING] *)

Lemma settled_status w e j s s' :
  (exists k env, e = UpscaleSettled k env)
  \/ (exists k, e = KeySelectionSettled k) ->
  steps w !! j = Some s -> steps (dispatch w e) !! j = Some s' ->
  s' = s \/ status s' = COMPLETED.
Proof.
  assert (forall id f,
    (forall x, status (f x) = COMPLETED) ->
    byId id f (steps w) !! j = Some s' -> steps w !! j = Some s ->
    s' = s \/ status s' = COMPLETED) as Hby.
  { intros id f Hf. rewrite byId_lookup. intros H1 H2. rewrite H2 in H1.
    cbn in H1. injection H1 as <-.
    destruct (decide (step_id s = id)); [right; apply Hf|by left]. }
  intros [(k & env & ->)|(k & ->)] Hj; cbn.
  - unfold upscaleSettled. destruct (upscales w !! k) as [[id|id]|];
      try (intros; left; congruence).
    destruct (upscaleFlowImage env) as [image|message]; cbn.
    + intros H. eapply Hby; [|exact H|exact Hj]. done.
    + destruct (_ || _); cbn; [intros; left; congruence|].
      intros H. eapply Hby; [|exact H|exact Hj]. done.
  - unfold keySelectionSettled. destruct (upscales w !! k) as [[id|id]|];
      try (intros; left; congruence).
    cbn. intros H. eapply Hby; [|exact H|exact Hj]. done.
Qed.

Lemma upscale_round_trip w id step image env :
  findStep id (steps w) = Some step ->
  imageBase64 step = Some image -> Js.truthy image = true ->
  status step <> UPSCALING ->
  let k := length (upscales w) in
  let w' := run w [HandleUpscale id; UpscaleSettled k env;
                   KeySelectionSettled k] in
  upscales w' = upscales w
  /\ exists f, (forall x, status (f x) = COMPLETED)
               /\ steps w' = byId id f (steps w).
Proof.
  intros Hf Him Ht Hst. cbv zeta. cbn [run fold_left dispatch].
  rewrite (handleUpscale_accepted _ _ _ _ Hf Him Ht Hst).
  assert (forall l : list Upscale, l !! length l = None) as Hend.
  { intros l. by apply lookup_ge_None. }
  unfold upscaleSettled. cbn [upscales steps].
  rewrite list_lookup_middle by done.
  destruct (upscaleFlowImage env) as [upscaled|message].
  - cbn [upscales steps isProcessing aspectRatio walks calls].
    rewrite delete_middle, app_nil_r. unfold keySelectionSettled. cbn.
    rewrite Hend. cbn. split; [done|].
    exists (fun x => storeUpscaled upscaled (markUpscaling x)).
    split; [done|]. by rewrite byId_compose.
  - destruct (_ || _).
    + unfold keySelectionSettled. cbn.
      rewrite insert_last, list_lookup_middle by done. cbn.
      rewrite delete_middle, app_nil_r. split; [done|].
      exists (fun x => resetCompleted (markUpscaling x)).
      split; [done|]. by rewrite byId_compose.
    + cbn [upscales steps isProcessing aspectRatio walks calls].
      rewrite delete_middle, app_nil_r. unfold keySelectionSettled. cbn.
      rewrite Hend. cbn. split; [done|].
      exists (fun x => upscaleFailed (markUpscaling x)).
      split; [done|]. by rewrite byId_compose.
Qed.

(** C4, as the code has it.  [handleUpscale(id)] puts the step in
    [UPSCALING] whatever its status, as long as the step found has a
    non-empty image and is not [UPSCALING] already.  When the upscale call
    or the key selection settles, a step the handler changes ends in
    [COMPLETED], never in [ERROR]; and the handler left alone brings the
    step back to [COMPLETED] with nothing pending, whatever the service
    answers. *)
Theorem upscaling_transitions w id step image :
  findStep id (steps w) = Some step ->
  imageBase64 step = Some image -> Js.truthy image = true ->
  status step <> UPSCALING ->
  steps (dispatch w (HandleUpscale id)) = byId id markUpscaling (steps w)
  /\ (forall w1 e j s s',
        (exists k env, e = UpscaleSettled k env)
        \/ (exists k, e = KeySelectionSettled k) ->
        steps w1 !! j = Some s -> steps (dispatch w1 e) !! j = Some s' ->
        s' = s \/ status s' = COMPLETED)
  /\ forall env,
       let k := length (upscales w) in
       let w' := run w [HandleUpscale id; UpscaleSettled k env;
                        KeySelectionSettled k] in
       upscales w' = upscales w
       /\ forall j s, steps w !! j = Some s ->
            exists s', steps w' !! j = Some s'
                       /\ (step_id s = id -> status s' = COMPLETED)
                       /\ (step_id s <> id -> s' = s).
Proof.
  intros Hf Him Ht Hst. split; [|split].
  - cbn. by rewrite (handleUpscale_accepted _ _ _ _ Hf Him Ht Hst).
  - intros w1 e j s s'. apply settled_status.
  - intros env. cbv zeta.
    destruct (upscale_round_trip w id step image env Hf Him Ht Hst)
      as (Hup & f & Hdone & Hsteps).
    split; [done|]. intros j s Hj. rewrite Hsteps, byId_lookup, Hj. cbn.
    destruct (decide (step_id s = id)); eexists; repeat split; done.
Qed.

(** C4, as the spec has it, fails: in [errorWithImage], reached through
    actions the page offers, the only step is in [ERROR] and holds an
    image; the page offers its upscale button, and [handleUpscale] moves
    the step from [ERROR] to [UPSCALING]. *)
Lemma upscaling_entered_from_error :
  reachable errorWithImage
  /\ allOffered (initial "a") (regenerateWhileUpscaling ++ [HandleUpscale "a"])
     = true
  /\ steps errorWithImage
     = [mkStep "a" "empty room" ERROR (Some "A") (Some false)
               (Some "rate limited")]
  /\ steps (dispatch errorWithImage (HandleUpscale "a"))
     = [mkStep "a" "empty room" UPSCALING (Some "A") (Some false)
               (Some "rate limited")].
Proof.
  split; [|by vm_compute].
  apply reachable_run; [constructor|reflexivity].
Qed.

(** * Instances of the theorems on the scenarios *)

Lemma generation_failure_ends_walk_witness :
  generateFlowImage (SdkThrows "rate limited") = RejectedWith "rate limited"
  /\ (exists s,
        steps (runFlow twoScenes ([] ++ [SdkThrows "rate limited"])) !! 0
        = Some s
        /\ status s = ERROR /\ error s = Some "rate limited").
Proof.
  split; [reflexivity|].
  apply (proj2 (generation_failure_ends_walk (SdkThrows "rate limited")
                  "rate limited" eq_refl)
           twoScenes []
           (mkWalk 0 (mkStep "a" "empty room" IDLE None None None)
                   [mkStep "b" "add a sofa" IDLE None None None]
                   None Ratio_16_9)); [split|]; reflexivity.
Defined.

Lemma generation_failure_keeps_image_witness :
  generateFlowImage (SdkThrows "") = RejectedWith "Failed to generate image"
  /\ exists before after,
       steps errorWithImage !! 0 = Some before
       /\ steps (runFlow errorWithImage ([] ++ [SdkThrows ""])) !! 0
          = Some after
       /\ after = mkStep (step_id before) (prompt before) ERROR
                         (imageBase64 before) (isUpscaled before)
                         (Some "Failed to generate image").
Proof.
  split; [reflexivity|].
  apply (proj2 (generation_failure_keeps_image (SdkThrows "")
                  "Failed to generate image" eq_refl)
           errorWithImage []
           (mkWalk 0 (mkStep "a" "empty room" ERROR (Some "A") (Some false)
                             (Some "rate limited"))
                   [] None Ratio_16_9)); [split|]; reflexivity.
Defined.

Lemma reachable_firstDone : reachable firstDone.
Proof.
  apply reachable_run; [|reflexivity].
  apply reachable_run; [constructor|reflexivity].
Defined.

Lemma completed_step_is_memoized_witness :
  (reachable firstDone /\ isProcessing firstDone = false)
  /\ steps (runFlow firstDone [SdkResponse (Some [Some "B"])]) !! 0
     = Some (mkStep "a" "empty room" COMPLETED (Some "A") (Some false) None).
Proof.
  split; [split; [exact reachable_firstDone|reflexivity]|].
  apply (completed_step_is_memoized firstDone 0
           (mkStep "a" "empty room" COMPLETED (Some "A") (Some false) None)
           "A" reachable_firstDone); reflexivity.
Defined.

Lemma reachable_firstBlanked : reachable firstBlanked.
Proof. apply reachable_run; [exact reachable_firstDone|reflexivity]. Defined.

Lemma blank_prompt_is_skipped_witness :
  (reachable firstBlanked /\ isProcessing firstBlanked = false)
  /\ forall rest i previousImage,
       loop (mkStep "a" "  " COMPLETED (Some "A") (Some false) None :: rest)
            i previousImage
       = loop rest (S i) (Some "A").
Proof.
  split; [split; [exact reachable_firstBlanked|reflexivity]|].
  apply (blank_prompt_is_skipped firstBlanked 0
           (mkStep "a" "  " COMPLETED (Some "A") (Some false) None)
           reachable_firstBlanked); reflexivity.
Defined.

Lemma reachable_midWalk : reachable midWalk.
Proof. apply reachable_run; [constructor|reflexivity]. Defined.

Lemma runFlow_single_flight_witness :
  reachable midWalk /\ dispatch midWalk GenerateImages = midWalk.
Proof.
  split; [exact reachable_midWalk|].
  apply (runFlow_single_flight midWalk reachable_midWalk). discriminate.
Defined.


Lemma upscale_refused_witness :
  findStep "a" (steps (initial "a")) = Some (newStep "a")
  /\ dispatch (initial "a") (HandleUpscale "a") = initial "a".
Proof.
  split; [reflexivity|].
  apply (upscale_refused (initial "a") "a").
  right. exists (newStep "a"). split; [reflexivity|]. by left.
Defined.

Lemma at_least_one_step_witness :
  reachable (run twoScenes [RemoveStep "a"; RemoveStep "b"])
  /\ 1 <= length (steps (run twoScenes [RemoveStep "a"; RemoveStep "b"])).
Proof.
  assert (reachable (run twoScenes [RemoveStep "a"; RemoveStep "b"])) as Hr.
  { apply reachable_run; [|reflexivity].
    apply reachable_run; [constructor|reflexivity]. }
  split; [exact Hr|].
  exact (proj1 (at_least_one_step _ Hr)).
Defined.

Lemma upscale_success_keeps_error_witness :
  upscales secondUpscalePending !! 0 = Some (AwaitUpscale "a")
  /\ steps (dispatch secondUpscalePending
              (UpscaleSettled 0
                 (mkUpscaleEnv None (SdkResponse (Some [Some "A2"])))))
     = byId "a" (storeUpscaled "A2") (steps secondUpscalePending).
Proof.
  split; [reflexivity|].
  apply (upscale_success_keeps_error secondUpscalePending 0 "a"
           (mkUpscaleEnv None (SdkResponse (Some [Some "A2"]))) "A2");
    reflexivity.
Defined.

Lemma upscaling_transitions_witness :
  findStep "a" (steps errorWithImage)
  = Some (mkStep "a" "empty room" ERROR (Some "A") (Some false)
                 (Some "rate limited"))
  /\ steps (dispatch errorWithImage (HandleUpscale "a"))
     = byId "a" markUpscaling (steps errorWithImage).
Proof.
  split; [reflexivity|].
  apply (upscaling_transitions errorWithImage "a"
           (mkStep "a" "empty room" ERROR (Some "A") (Some false)
                   (Some "rate limited")) "A"); try reflexivity.
  discriminate.
Defined.

(** * Further properties of the code *)

(** ** The service functions *)

Lemma firstInlineData_None parts :
  firstInlineData parts = None <->
  Forall (fun p => Js.truthy_opt p = false) parts.
Proof.
  induction parts as [|[d|] rest IH]; cbn.
  - split; [constructor|done].
  - destruct (Js.truthy d) eqn:Hd.
    + split; [done|]. intros H. apply Forall_cons in H as [H _].
      cbn in H. congruence.
    + rewrite IH. split; [by constructor|]. by intros [_ ?]%Forall_cons.
  - rewrite IH. split; [by constructor|]. by intros [_ ?]%Forall_cons.
Qed.

(** The extraction loop returns the inline data of the first part that has
    any: parts without inline data and parts whose data is empty are
    skipped, and what is returned is never empty.  It finds nothing exactly
    when no part has data. *)
Theorem firstInlineData_first parts :
  (forall data,
     firstInlineData parts = Some data <->
     exists skipped rest,
       parts = skipped ++ Some data :: rest
       /\ Js.truthy data = true
       /\ Forall (fun p => Js.truthy_opt p = false) skipped)
  /\ (firstInlineData parts = None <->
      Forall (fun p => Js.truthy_opt p = false) parts).
Proof.
  split; [|apply firstInlineData_None].
  intros data. split.
  - induction parts as [|p rest IH]; [done|]. cbn.
    assert (firstInlineData rest = Some data ->
            Js.truthy_opt p = false ->
            exists skipped rest0,
              p :: rest = skipped ++ Some data :: rest0
              /\ Js.truthy data = true
              /\ Forall (fun p => Js.truthy_opt p = false) skipped) as Hskip.
    { intros Hr Hp. destruct (IH Hr) as (sk & r0 & -> & Ht & Hsk).
      exists (p :: sk), r0. split; [done|]. split; [done|]. by constructor. }
    destruct p as [d|]; [|by intros; apply Hskip].
    destruct (Js.truthy d) eqn:Hd; [|by intros; apply Hskip].
    intros [= ->]. exists [], rest. by repeat split.
  - intros (sk & r0 & -> & Ht & Hsk).
    induction Hsk as [|p sk Hp _ IH]; cbn; [by rewrite Ht|].
    destruct p as [d|]; [|done]. cbn in Hp. by rewrite Hp.
Qed.

(** [generateFlowImage] resolves exactly when the answer has a part with
    inline data, and then with the first such data, which is not empty.  It
    never rejects with an empty message: an error thrown with a message is
    rethrown with that message, one thrown without gets
    ["Failed to generate image"], and an answer without image data gives
    ["No image data found in response"]. *)
Theorem generateFlowImage_outcomes sdk :
  (forall image,
     generateFlowImage sdk = Fulfilled image <->
     exists parts, sdk = SdkResponse (Some parts)
                   /\ firstInlineData parts = Some image)
  /\ (forall image,
        generateFlowImage sdk = Fulfilled image -> Js.truthy image = true)
  /\ (forall message,
        generateFlowImage sdk = RejectedWith message ->
        Js.truthy message = true
        /\ ((exists thrown, sdk = SdkThrows thrown /\ Js.truthy thrown = true
                            /\ message = thrown)
            \/ (sdk = SdkThrows "" /\ message = "Failed to generate image")
            \/ ((sdk = SdkResponse None
                 \/ exists parts, sdk = SdkResponse (Some parts)
                                  /\ firstInlineData parts = None)
                /\ message = "No image data found in response"))).
Proof.
  split; [|split].
  - intros image. unfold generateFlowImage. split.
    + destruct sdk as [m|[parts|]]; cbn; try done.
      destruct (firstInlineData parts) eqn:Hf; [|done].
      intros [= <-]. by exists parts.
    + intros (parts & -> & Hf). cbn. by rewrite Hf.
  - intros image. apply generateFlowImage_truthy.
  - intros message. unfold generateFlowImage.
    destruct sdk as [m|[parts|]]; cbn.
    + intros [= <-]. unfold Js.or_else. destruct m as [|c m]; cbn.
      * split; [done|]. right. by left.
      * split; [done|]. left. by exists (String c m).
    + destruct (firstInlineData parts) eqn:Hf; [done|].
      intros [= <-]. split; [done|]. right. right. split; [|done].
      right. by exists parts.
    + intros [= <-]. split; [done|]. right. right. split; [by left|done].
Qed.

Lemma includes_truthy needle hay :
  Js.truthy needle = true -> Js.includes needle hay = true ->
  Js.truthy hay = true.
Proof. destruct needle; [done|]. by destruct hay. Qed.

(** [upscaleFlowImage] and the two messages [handleUpscale] reads as a
    missing key.  When AI Studio says no key is selected the call fails
    with [API_KEY_REQUIRED] whatever the SDK would do.  Otherwise it
    resolves exactly when the answer has inline data (with the first such
    data); it fails with one of the two messages exactly when the SDK
    throws an error whose message contains "Requested entity was not
    found" or is one of the two messages itself; and an answer without
    image data is an ordinary failure,
    ["No upscaled image data found"]. *)
Theorem upscaleFlowImage_outcomes env :
  (hasSelectedApiKey env = Some false ->
   upscaleFlowImage env = RejectedWith API_KEY_REQUIRED)
  /\ (hasSelectedApiKey env <> Some false ->
      (forall image,
         upscaleFlowImage env = Fulfilled image <->
         exists parts, upscaleSdk env = SdkResponse (Some parts)
                       /\ firstInlineData parts = Some image)
      /\ ((upscaleFlowImage env = RejectedWith API_KEY_REQUIRED
           \/ upscaleFlowImage env = RejectedWith API_KEY_INVALID) <->
          exists thrown,
            upscaleSdk env = SdkThrows thrown
            /\ (Js.includes "Requested entity was not found" thrown = true
                \/ thrown = API_KEY_REQUIRED \/ thrown = API_KEY_INVALID))
      /\ ((upscaleSdk env = SdkResponse None
           \/ exists parts, upscaleSdk env = SdkResponse (Some parts)
                            /\ firstInlineData parts = None) ->
          upscaleFlowImage env
          = RejectedWith "No upscaled image data found")).
Proof.
  split; [apply upscaleFlowImage_key_required|].
  intros Hkey.
  assert (upscaleFlowImage env
          = match extractImage "No upscaled image data found" (upscaleSdk env)
            with
            | Fulfilled data => Fulfilled data
            | RejectedWith message =>
                if Js.truthy message
                   && Js.includes "Requested entity was not found" message
                then RejectedWith API_KEY_INVALID
                else RejectedWith message
            end) as ->.
  { unfold upscaleFlowImage. by destruct (hasSelectedApiKey env) as [[|]|]. }
  destruct (upscaleSdk env) as [m|[parts|]]; cbn [extractImage].
  - split; [|split].
    + intros image. split; [|by intros (? & ? & _)].
      by destruct (Js.truthy m && _).
    + destruct (Js.includes "Requested entity was not found" m) eqn:Hinc.
      * rewrite (includes_truthy "Requested entity was not found" m
                   eq_refl Hinc). cbn.
        split; [|by right]. intros _. exists m. by auto.
      * rewrite andb_false_r. split.
        -- intros [[= ->]|[= ->]]; eexists; split; eauto.
        -- intros (thrown & [= <-] & [?|[->| ->]]); [congruence|by left|by right].
    + by intros [?|(? & ? & _)].
  - destruct (firstInlineData parts) as [d|] eqn:Hf; split; [|split| |split].
    + intros image. split.
      * intros [= <-]. by exists parts.
      * intros (parts' & [= <-] & Hf'). congruence.
    + split; [by intros [?|?]|by intros (? & ? & _)].
    + intros [?|(parts' & [= <-] & Hf')]; congruence.
    + intros image. split; [done|]. intros (parts' & [= <-] & Hf'). congruence.
    + split; [by intros [?|?]|by intros (? & ? & _)].
    + done.
  - split; [|split].
    + intros image. split; [done|by intros (? & ? & _)].
    + split; [by intros [?|?]|by intros (? & ? & _)].
    + done.
Qed.

(** ** The walk as a recursion *)

Lemma atIndex_middle f (done rest : list FlowStep) x :
  atIndex (length done) f (done ++ x :: rest) = done ++ f x :: rest.
Proof.
  apply list_eq. intros j. rewrite atIndex_lookup.
  destruct (decide (j = length done)) as [->|Hne].
  - by rewrite !list_lookup_middle.
  - destruct (decide (j < length done)).
    + rewrite !lookup_app_l by done. by destruct (done !! j).
    + rewrite !lookup_app_r by lia.
      destruct (j - length done) as [|q] eqn:Hq; [lia|]. cbn.
      by destruct (rest !! q).
Qed.

Lemma run_cons w e events : run w (e :: events) = run (dispatch w e) events.
Proof. done. Qed.

Lemma walk_refines ratio rest : forall wm done previousImage sdks,
  walks wm = [] -> steps wm = done ++ rest ->
  let w' := run (continueWalk wm ratio (loop rest (length done) previousImage))
                (GenerateSettled 0 <$> sdks) in
  let r := walkFrom rest (length done) previousImage ratio sdks in
  steps w' = done ++ r.1 /\ calls w' = calls wm ++ r.2.
Proof.
  induction rest as [|step rest IH]; intros wm done p sdks Hw Hs; cbv zeta.
  - cbn [loop continueWalk walkFrom]. rewrite run_settle_idle by done.
    cbn. rewrite !app_nil_r. by rewrite app_nil_r in Hs.
  - destruct (needsGeneration step) eqn:Hn.
    + rewrite loop_generate by done. cbn [walkFrom]. rewrite Hn.
      cbn [continueWalk]. rewrite Hw, Hs, atIndex_middle. cbn [app].
      destruct sdks as [|sdk sdks]; [done|].
      rewrite fmap_cons, run_cons. cbn [dispatch].
      unfold generateSettled.
      cbn [walks lookup list_lookup walk_index walk_rest walk_aspectRatio
           steps isProcessing aspectRatio upscales calls].
      destruct (generateFlowImage sdk) as [image|message].
      * rewrite atIndex_middle. cbn [delete list_delete].
        pose (done' := done ++ [storeGenerated image (markGenerating step)]).
        assert (S (length done) = length done') as Hlen.
        { unfold done'. rewrite length_app. cbn. lia. }
        rewrite Hlen.
        match goal with
        | |- context [continueWalk ?w _ _] =>
            destruct (IH w done' (Some image) sdks) as [H1 H2];
              [done|by unfold done'; rewrite <- app_assoc|]
        end.
        cbv zeta in H1, H2. rewrite H1, H2. cbn [fst snd calls].
        unfold done'. by rewrite <- !app_assoc.
      * rewrite run_settle_idle by done. cbn. by rewrite atIndex_middle.
    + rewrite loop_pass by done. cbn [walkFrom]. rewrite Hn.
      pose (done' := done ++ [step]).
      assert (S (length done) = length done') as Hlen.
      { unfold done'. rewrite length_app. cbn. lia. }
      rewrite Hlen.
      destruct (IH wm done' (adopt p step) sdks) as [H1 H2];
        [done|by unfold done'; rewrite <- app_assoc|].
      cbv zeta in H1, H2. rewrite H1, H2. cbn [fst snd].
      unfold done'. by rewrite <- !app_assoc.
Qed.

Lemma runFlow_walkFrom w0 sdks :
  idle w0 ->
  steps (runFlow w0 sdks)
  = (walkFrom (steps w0) 0 None (aspectRatio w0) sdks).1
  /\ calls (runFlow w0 sdks)
     = calls w0 ++ (walkFrom (steps w0) 0 None (aspectRatio w0) sdks).2.
Proof.
  intros [Hp Hw]. unfold runFlow, generateImages. rewrite Hp.
  apply (walk_refines (aspectRatio w0) (steps w0)
           (mkWorld (steps w0) true (aspectRatio w0) (walks w0) (upscales w0)
                    (calls w0)) [] None sdks); done.
Qed.

(** A walk left alone is the recursion [walkFrom] over the list it started
    from: the steps it leaves and the calls it adds are those [walkFrom]
    gives for the answers of the service, whatever they are and however
    many. *)
Theorem runFlow_is_walkFrom w0 sdks :
  idle w0 ->
  let r := walkFrom (steps w0) 0 None (aspectRatio w0) sdks in
  steps (runFlow w0 sdks) = r.1 /\ calls (runFlow w0 sdks) = calls w0 ++ r.2.
Proof.
  intros Hidle. by apply runFlow_walkFrom.
Qed.

Lemma runFlow_is_walkFrom_witness :
  idle twoScenes
  /\ steps (runFlow twoScenes [SdkResponse (Some [Some "A"])])
     = (walkFrom (steps twoScenes) 0 None (aspectRatio twoScenes)
                 [SdkResponse (Some [Some "A"])]).1.
Proof.
  assert (idle twoScenes) as Hidle by (split; reflexivity).
  split; [exact Hidle|].
  apply (runFlow_is_walkFrom twoScenes [SdkResponse (Some [Some "A"])] Hidle).
Defined.

Lemma walkFrom_passed l : forall i previousImage ratio sdks,
  Forall (fun s => needsGeneration s = false) l ->
  walkFrom l i previousImage ratio sdks = (l, []).
Proof.
  induction l as [|step rest IH]; intros i p ratio sdks Hl; [done|].
  apply Forall_cons in Hl as [Hn Hrest]. cbn [walkFrom]. rewrite Hn.
  by rewrite IH.
Qed.

Lemma walkFrom_success l : forall i previousImage ratio sdks,
  Forall fulfils sdks -> length l <= length sdks ->
  Forall2 completedFrom l (walkFrom l i previousImage ratio sdks).1
  /\ length (walkFrom l i previousImage ratio sdks).2
     = length (filter (fun s => needsGeneration s = true) l).
Proof.
  induction l as [|step rest IH]; intros i p ratio sdks Hok Hlen.
  { split; [constructor|done]. }
  cbn [walkFrom]. cbn [length] in Hlen.
  destruct (needsGeneration step) eqn:Hn.
  - rewrite filter_cons_True by done.
    destruct sdks as [|sdk sdks]; [cbn in Hlen; lia|].
    apply Forall_cons in Hok as [[image Himage] Hok]. rewrite Himage.
    cbn [length] in Hlen.
    destruct (IH (S i) (Some image) ratio sdks Hok) as [H1 H2]; [lia|].
    cbn [fst snd length]. split; [|by rewrite H2].
    constructor; [|done]. unfold completedFrom. rewrite Hn. cbn.
    repeat split; try done. unfold hasImage. cbn.
    by eapply generateFlowImage_truthy.
  - rewrite filter_cons_False by congruence.
    destruct (IH (S i) (adopt p step) ratio sdks Hok) as [H1 H2]; [lia|].
    cbn [fst snd]. split; [|done].
    constructor; [|done]. unfold completedFrom. by rewrite Hn.
Qed.

Lemma completedFrom_settled s s' :
  completedFrom s s' -> needsGeneration s' = false.
Proof.
  unfold completedFrom. destruct (needsGeneration s) eqn:Hn.
  - intros (_ & _ & Hst & Him & _). unfold needsGeneration.
    rewrite Him, Hst. cbn. apply andb_false_r.
  - by intros ->.
Qed.

(** A walk left alone whose calls all succeed (with at least as many
    answers as there are steps) ends, with the flag clear; it makes one call
    for each step that needed generation; it leaves each of those steps
    [COMPLETED] with an image, [isUpscaled = false] and no error, and every
    other step as it was.  No step then needs generation, so running the
    flow again changes no step and calls nothing. *)
Theorem successful_walk_completes w0 sdks :
  idle w0 -> Forall fulfils sdks -> length (steps w0) <= length sdks ->
  let w1 := runFlow w0 sdks in
  idle w1
  /\ Forall2 completedFrom (steps w0) (steps w1)
  /\ (exists new,
        calls w1 = calls w0 ++ new
        /\ length new
           = length (filter (fun s => needsGeneration s = true) (steps w0)))
  /\ Forall (fun s => needsGeneration s = false) (steps w1)
  /\ forall more,
       steps (runFlow w1 more) = steps w1
       /\ calls (runFlow w1 more) = calls w1.
Proof.
  intros Hidle Hok Hlen. cbv zeta.
  assert (idle (runFlow w0 sdks)) as Hidle1.
  { pose proof (walk_over_eventually w0 sdks Hidle Hlen) as Hw.
    split; [by apply walk_over_flag|done]. }
  destruct (runFlow_walkFrom w0 sdks Hidle) as [Hs Hc].
  destruct (walkFrom_success (steps w0) 0 None (aspectRatio w0) sdks Hok Hlen)
    as [H2 Hcount].
  assert (Forall (fun s => needsGeneration s = false) (steps (runFlow w0 sdks)))
    as Hsettled.
  { rewrite Hs. clear -H2. induction H2; constructor; [|done].
    by eapply completedFrom_settled. }
  split; [done|]. split; [by rewrite Hs|]. split; [by eexists|].
  split; [done|]. intros more.
  destruct (runFlow_walkFrom (runFlow w0 sdks) more Hidle1) as [Hs1 Hc1].
  rewrite walkFrom_passed in Hs1, Hc1 by done. cbn in Hs1, Hc1.
  by rewrite app_nil_r in Hc1.
Qed.

Lemma successful_walk_completes_witness :
  (idle twoScenes
   /\ Forall fulfils [SdkResponse (Some [Some "A"]);
                      SdkResponse (Some [None; Some "B"])])
  /\ Forall (fun s => needsGeneration s = false)
            (steps (runFlow twoScenes
                      [SdkResponse (Some [Some "A"]);
                       SdkResponse (Some [None; Some "B"])])).
Proof.
  assert (idle twoScenes) as Hidle by (split; reflexivity).
  assert (Forall fulfils [SdkResponse (Some [Some "A"]);
                          SdkResponse (Some [None; Some "B"])]) as Hok.
  { repeat constructor; eexists; reflexivity. }
  split; [by split|].
  apply (successful_walk_completes twoScenes _ Hidle Hok (le_n 2)).
Defined.

(** ** The aspect ratio of a walk *)

Lemma ratio_kept_dispatch ratio calls0 w e :
  e <> GenerateImages ->
  Forall (fun t => walk_aspectRatio t = ratio) (walks w) ->
  (exists new, calls w = calls0 ++ new /\ Forall (generateRatio ratio) new) ->
  Forall (fun t => walk_aspectRatio t = ratio) (walks (dispatch w e))
  /\ exists new, calls (dispatch w e) = calls0 ++ new
                 /\ Forall (generateRatio ratio) new.
Proof.
  intros Hne Hwalks (new & Hcalls & Hnew).
  assert (forall c, generateRatio ratio c ->
            exists new', (calls w ++ [c]) = calls0 ++ new'
                         /\ Forall (generateRatio ratio) new') as Hadd.
  { intros c Hc. exists (new ++ [c]). rewrite Hcalls, app_assoc.
    split; [done|]. apply Forall_app. split; [done|]. by apply Forall_singleton. }
  assert (exists new', calls w = calls0 ++ new'
                       /\ Forall (generateRatio ratio) new') as Hsame
    by (by exists new).
  destruct e as [uuid|id|id p|r| |id|k sdk|k env|k|k]; cbn [dispatch];
    try done.
  - unfold removeStep. by destruct (decide _).
  - unfold handleUpscale. destruct (findStep _ _) as [step|]; [|done].
    destruct (imageBase64 step); [|done].
    destruct (_ || _); [done|]. cbn. split; [done|]. by apply Hadd.
  - unfold generateSettled. destruct (walks w !! k) as [t|] eqn:Hk; [|done].
    pose proof (Forall_lookup_1 _ _ _ _ Hwalks Hk) as Ht. cbn in Ht.
    destruct (generateFlowImage sdk) as [image|message]; cbn.
    + destruct (loop _ _ _) as [|i' step' p' rest']; cbn.
      * split; [by apply Forall_delete|done].
      * split; [|by apply Hadd].
        apply Forall_app. split; [by apply Forall_delete|].
        by apply Forall_singleton.
    + split; [by apply Forall_delete|done].
  - unfold upscaleSettled. destruct (upscales w !! k) as [[id|id]|]; try done.
    destruct (upscaleFlowImage env); cbn; [done|].
    destruct (_ || _); cbn; [|done]. split; [done|]. by apply Hadd.
  - unfold keySelectionSettled.
    by destruct (upscales w !! k) as [[id|id]|].
  - unfold keySelectionFailed.
    by destruct (upscales w !! k) as [[id|id]|].
Qed.

(** Every generate call of a walk carries the aspect ratio that was
    selected when the walk started: whatever happens while the walk is
    suspended (the ratio being changed, steps edited, upscales), short of a
    new walk being started, the generate calls added since the start have
    the ratio of the start. *)
Theorem walk_keeps_aspect_ratio w0 events :
  idle w0 -> GenerateImages ∉ events ->
  exists new,
    calls (run (generateImages w0) events) = calls w0 ++ new
    /\ Forall (generateRatio (aspectRatio w0)) new.
Proof.
  intros [Hp Hw] Hno.
  assert (forall w,
    Forall (fun t => walk_aspectRatio t = aspectRatio w0) (walks w) ->
    (exists new, calls w = calls w0 ++ new
                 /\ Forall (generateRatio (aspectRatio w0)) new) ->
    exists new, calls (run w events) = calls w0 ++ new
                /\ Forall (generateRatio (aspectRatio w0)) new) as Hrun.
  { induction events as [|e events IH]; intros w Hwalks Hcalls; [done|].
    apply not_elem_of_cons in Hno as [Hne Hno].
    destruct (ratio_kept_dispatch _ _ w e (not_eq_sym Hne) Hwalks Hcalls)
      as [Hwalks' Hcalls'].
    rewrite run_cons. by apply IH. }
  apply Hrun; unfold generateImages; rewrite Hp;
    destruct (loop _ _ _) as [|i step p rest]; cbn; rewrite ?Hw.
  - constructor.
  - by repeat constructor.
  - exists []. by rewrite app_nil_r.
  - eexists. split; [done|]. by repeat constructor.
Qed.

Lemma walk_keeps_aspect_ratio_witness :
  (idle twoScenes
   /\ GenerateImages
      ∉ [SetAspectRatio Ratio_9_16;
         GenerateSettled 0 (SdkResponse (Some [Some "A"]))])
  /\ exists new,
       calls (run (generateImages twoScenes)
                [SetAspectRatio Ratio_9_16;
                 GenerateSettled 0 (SdkResponse (Some [Some "A"]))])
       = calls twoScenes ++ new
       /\ Forall (generateRatio (aspectRatio twoScenes)) new.
Proof.
  assert (idle twoScenes) as Hidle by (split; reflexivity).
  assert (GenerateImages
          ∉ [SetAspectRatio Ratio_9_16;
             GenerateSettled 0 (SdkResponse (Some [Some "A"]))]) as Hno.
  { intros Hin. repeat (apply elem_of_cons in Hin as [Hin|Hin]; [done|]).
    by apply elem_of_nil in Hin. }
  split; [by split|].
  apply (walk_keeps_aspect_ratio twoScenes _ Hidle Hno).
Defined.

Example ratio_changed_mid_walk :
  let w := run (generateImages twoScenes)
               [SetAspectRatio Ratio_9_16;
                GenerateSettled 0 (SdkResponse (Some [Some "A"]))] in
  aspectRatio w = Ratio_9_16
  /\ calls w = [CallGenerate 0 "empty room" None Ratio_16_9;
                CallGenerate 1 "add a sofa" (Some "A") Ratio_16_9].
Proof. by vm_compute. Qed.

(** ** What an event does to each step *)

Lemma Forall2_atIndex (R : relation FlowStep) i f l :
  (forall s, R s s) -> (forall s, R s (f s)) -> Forall2 R l (atIndex i f l).
Proof.
  intros Hrefl Hf. apply Forall2_same_length_lookup.
  split; [by rewrite atIndex_length|]. intros j s s' Hj.
  rewrite atIndex_lookup, Hj. cbn. intros [= <-].
  by destruct (decide (j = i)).
Qed.

Lemma Forall2_byId (R : relation FlowStep) id f l :
  (forall s, R s s) -> (forall s, R s (f s)) -> Forall2 R l (byId id f l).
Proof.
  intros Hrefl Hf. apply Forall2_same_length_lookup.
  split; [by rewrite byId_length|]. intros j s s' Hj.
  rewrite byId_lookup, Hj. cbn. intros [= <-].
  by destruct (decide (step_id s = id)).
Qed.

Lemma Forall2_updates_refl l : Forall2 updates l l.
Proof. apply Forall_Forall2_diag, Forall_forall. intros s _. apply rtc_refl. Qed.

Lemma Forall2_updates_trans l1 l2 l3 :
  Forall2 updates l1 l2 -> Forall2 updates l2 l3 -> Forall2 updates l1 l3.
Proof.
  intros H12. revert l3. induction H12 as [|x y l1 l2 Hxy _ IH]; intros l3 H23.
  - by inversion H23.
  - inversion H23 as [|? z ? l3' Hyz Hrest]; subst.
    constructor; [by eapply rtc_trans|by apply IH].
Qed.

Lemma updates_atIndex i f l :
  (forall s, update s (f s)) -> Forall2 updates l (atIndex i f l).
Proof.
  intros Hf. apply Forall2_atIndex; intros s; [apply rtc_refl|].
  apply rtc_once, Hf.
Qed.

Lemma updates_byId id f l :
  (forall s, update s (f s)) -> Forall2 updates l (byId id f l).
Proof.
  intros Hf. apply Forall2_byId; intros s; [apply rtc_refl|].
  apply rtc_once, Hf.
Qed.

Lemma updates_continueWalk w ratio r :
  Forall2 updates (steps w) (steps (continueWalk w ratio r)).
Proof.
  destruct r as [|i step p rest]; cbn; [apply Forall2_updates_refl|].
  apply updates_atIndex. constructor.
Qed.

(** Every event but [AddStep] and [RemoveStep] keeps the list in place and
    changes each step by updates of the source only. *)
Lemma dispatch_updates w e :
  (forall uuid, e <> AddStep uuid) -> (forall id, e <> RemoveStep id) ->
  Forall2 updates (steps w) (steps (dispatch w e)).
Proof.
  intros Hadd Hrem.
  destruct e as [uuid|id|id p|ratio| |id|k sdk|k env|k|k]; cbn [dispatch].
  - by destruct (Hadd uuid).
  - by destruct (Hrem id).
  - apply updates_byId. constructor.
  - apply Forall2_updates_refl.
  - unfold generateImages. destruct (isProcessing w);
      [apply Forall2_updates_refl|].
    apply (updates_continueWalk
             (mkWorld (steps w) true (aspectRatio w) (walks w) (upscales w)
                      (calls w))).
  - unfold handleUpscale.
    destruct (findStep _ _) as [step|]; [|apply Forall2_updates_refl].
    destruct (imageBase64 step); [|apply Forall2_updates_refl].
    destruct (_ || _); [apply Forall2_updates_refl|].
    apply updates_byId. constructor.
  - unfold generateSettled.
    destruct (walks w !! k) as [t|]; [|apply Forall2_updates_refl].
    destruct (generateFlowImage sdk) as [image|message] eqn:Hg.
    + eapply Forall2_updates_trans; [|apply updates_continueWalk]. cbn.
      apply updates_atIndex. intros s. constructor.
      by eapply generateFlowImage_truthy.
    + cbn. apply updates_atIndex. constructor.
  - unfold upscaleSettled.
    destruct (upscales w !! k) as [[id|id]|];
      try apply Forall2_updates_refl.
    destruct (upscaleFlowImage env) as [image|message] eqn:Hu; cbn.
    + apply updates_byId. intros s. constructor.
      by eapply upscaleFlowImage_truthy.
    + destruct (_ || _); cbn; [apply Forall2_updates_refl|].
      apply updates_byId. constructor.
  - unfold keySelectionSettled.
    destruct (upscales w !! k) as [[id|id]|];
      try apply Forall2_updates_refl.
    cbn. apply updates_byId. constructor.
  - unfold keySelectionFailed.
    destruct (upscales w !! k) as [[id|id]|]; apply Forall2_updates_refl.
Qed.

Lemma updates_keep s s' :
  updates s s' ->
  step_id s' = step_id s
  /\ (hasImage s = true -> hasImage s' = true)
  /\ (status s <> IDLE -> status s' <> IDLE)
  /\ (idlePristine s -> idlePristine s').
Proof.
  induction 1 as [s|s1 s2 s3 H12 _ IH]; [done|].
  destruct IH as (Hid & Him & Hst & Hpr).
  assert (step_id s2 = step_id s1
          /\ (hasImage s1 = true -> hasImage s2 = true)
          /\ (status s1 <> IDLE -> status s2 <> IDLE)
          /\ (idlePristine s1 -> idlePristine s2)) as (Hid' & Him' & Hst' & Hpr').
  { destruct H12; (split; [done|]); (split; [by unfold hasImage|]);
      (split; [done|]); unfold idlePristine; cbn; by auto. }
  split; [congruence|]. split; [by auto|]. split; by auto.
Qed.

(** No handler clears an image or sends a step back to [IDLE]: across any
    event but [addStep] and [removeStep] the list keeps its length and, at
    every index, the step keeps its identifier, still has an image if it
    had one, and is not [IDLE] if it was not. *)
Theorem images_and_progress_are_kept w e :
  (forall uuid, e <> AddStep uuid) -> (forall id, e <> RemoveStep id) ->
  length (steps (dispatch w e)) = length (steps w)
  /\ forall j s, steps w !! j = Some s ->
       exists s', steps (dispatch w e) !! j = Some s'
                  /\ step_id s' = step_id s
                  /\ (hasImage s = true -> hasImage s' = true)
                  /\ (status s <> IDLE -> status s' <> IDLE).
Proof.
  intros Hadd Hrem. pose proof (dispatch_updates w e Hadd Hrem) as H2.
  split; [symmetry; by eapply Forall2_length|].
  intros j s Hj.
  destruct (Forall2_lookup_l _ _ _ _ _ H2 Hj) as (s' & Hj' & Hup).
  exists s'. split; [done|].
  destruct (updates_keep _ _ Hup) as (? & ? & ? & _). by repeat split.
Qed.

Lemma images_and_progress_are_kept_witness :
  ((forall uuid, GenerateSettled 0 (SdkThrows "rate limited") <> AddStep uuid)
   /\ (forall id, GenerateSettled 0 (SdkThrows "rate limited")
                  <> RemoveStep id))
  /\ length (steps (dispatch errorWithImage
                      (GenerateSettled 0 (SdkThrows "rate limited"))))
     = length (steps errorWithImage).
Proof.
  split; [by split|].
  apply (images_and_progress_are_kept errorWithImage
           (GenerateSettled 0 (SdkThrows "rate limited"))); done.
Defined.

Lemma updates_ids l l' :
  Forall2 updates l l' -> step_id <$> l' = step_id <$> l.
Proof.
  induction 1 as [|s s' l l' Hup _ IH]; [done|].
  rewrite !fmap_cons, IH. by destruct (updates_keep _ _ Hup) as [-> _].
Qed.

(** Step identifiers are distinct in every reachable state, and only
    [addStep] and [removeStep] change the sequence of identifiers: every
    other event leaves it as it is, and [addStep] puts the new identifier
    at its end. *)
Theorem identifiers_are_stable w :
  reachable w ->
  NoDup (step_id <$> steps w)
  /\ (forall e,
        (forall uuid, e <> AddStep uuid) -> (forall id, e <> RemoveStep id) ->
        step_id <$> steps (dispatch w e) = step_id <$> steps w)
  /\ (forall uuid,
        step_id <$> steps (dispatch w (AddStep uuid))
        = (step_id <$> steps w) ++ [uuid]).
Proof.
  intros Hr. split; [apply (wf_ids _ (reachable_wellFormed _ Hr))|]. split.
  - intros e Hadd Hrem. by apply updates_ids, dispatch_updates.
  - intros uuid. cbn. by rewrite fmap_app.
Qed.

Lemma identifiers_are_stable_witness :
  reachable firstDone /\ NoDup (step_id <$> steps firstDone).
Proof.
  split; [exact reachable_firstDone|].
  apply (identifiers_are_stable firstDone reachable_firstDone).
Defined.

Lemma reachable_idlePristine w :
  reachable w -> Forall idlePristine (steps w).
Proof.
  induction 1 as [uuid|w e _ IH Hadm].
  - by apply Forall_singleton.
  - destruct e as [uuid|id|id p|ratio| |id|k sdk|k env|k|k];
      try (eapply Forall2_Forall_r;
           [apply dispatch_updates; done|];
           eapply Forall_impl; [exact IH|];
           intros s Hs s' Hup; by apply (updates_keep _ _ Hup)).
    + cbn. apply Forall_app. split; [done|]. by apply Forall_singleton.
    + cbn. unfold removeStep. destruct (decide _); [done|]. cbn.
      apply Forall_forall. intros s [_ Hs]%list_elem_of_filter.
      rewrite Forall_forall in IH. by apply IH.
Qed.

(** In every reachable state a step in [IDLE] has never been worked on: it
    has no image, no [isUpscaled] flag and no error. *)
Theorem idle_steps_are_untouched w s :
  reachable w -> s ∈ steps w -> status s = IDLE ->
  imageBase64 s = None /\ isUpscaled s = None /\ error s = None.
Proof.
  intros Hr Hs Hst. pose proof (reachable_idlePristine w Hr) as Hall.
  rewrite Forall_forall in Hall. by apply (Hall s Hs).
Qed.

Lemma idle_steps_are_untouched_witness :
  (reachable firstDone
   /\ mkStep "b" "add a sofa" IDLE None None None ∈ steps firstDone)
  /\ imageBase64 (mkStep "b" "add a sofa" IDLE None None None) = None.
Proof.
  assert (mkStep "b" "add a sofa" IDLE None None None ∈ steps firstDone)
    as Hin.
  { apply (list_elem_of_lookup_2 _ 1). reflexivity. }
  split; [split; [exact reachable_firstDone|exact Hin]|].
  apply (idle_steps_are_untouched firstDone _ reachable_firstDone Hin).
  reflexivity.
Defined.

(** ** A step in [UPSCALING] has its upscale in flight *)

Lemma elem_of_atIndex s' i f (l : list FlowStep) :
  s' ∈ atIndex i f l -> exists s, s ∈ l /\ (s' = s \/ s' = f s).
Proof.
  intros [j Hj]%list_elem_of_lookup_1. rewrite atIndex_lookup in Hj.
  destruct (l !! j) as [s|] eqn:Hs; [|done]. cbn in Hj. injection Hj as <-.
  exists s. split; [by eapply list_elem_of_lookup_2|].
  destruct (decide (j = i)); by auto.
Qed.

Lemma elem_of_byId s' id f (l : list FlowStep) :
  s' ∈ byId id f l ->
  exists s, s ∈ l /\ ((step_id s = id /\ s' = f s)
                      \/ (step_id s <> id /\ s' = s)).
Proof.
  intros [j Hj]%list_elem_of_lookup_1. rewrite byId_lookup in Hj.
  destruct (l !! j) as [s|] eqn:Hs; [|done]. cbn in Hj. injection Hj as <-.
  exists s. split; [by eapply list_elem_of_lookup_2|].
  destruct (decide (step_id s = id)); by auto.
Qed.

Lemma pending_delete (l : list Upscale) k v u :
  l !! k = Some v -> u ∈ l -> upscaleId u <> upscaleId v -> u ∈ delete k l.
Proof.
  intros Hk [i Hi]%list_elem_of_lookup_1 Hne.
  assert (i <> k) by (intros ->; congruence).
  destruct (decide (i < k)).
  - apply (list_elem_of_lookup_2 _ i). by rewrite list_lookup_delete_lt.
  - apply (list_elem_of_lookup_2 _ (pred i)).
    rewrite list_lookup_delete_ge by lia.
    by replace (S (pred i)) with i by lia.
Qed.

Lemma pending_insert (l : list Upscale) k v v' u :
  l !! k = Some v -> upscaleId v' = upscaleId v -> u ∈ l ->
  exists u', u' ∈ <[k := v']> l /\ upscaleId u' = upscaleId u.
Proof.
  intros Hk Hid [i Hi]%list_elem_of_lookup_1.
  destruct (decide (i = k)) as [->|Hne].
  - exists v'. split; [|congruence].
    apply list_elem_of_insert. by eapply lookup_lt_Some.
  - exists u. split; [|done]. apply (list_elem_of_lookup_2 _ i).
    by rewrite list_lookup_insert_ne.
Qed.

Lemma upscalingPending_steps w l' :
  (forall s', s' ∈ l' -> status s' = UPSCALING ->
              exists s, s ∈ steps w /\ status s = UPSCALING
                        /\ step_id s = step_id s') ->
  upscalingPending w ->
  forall pr ra wk cs,
    upscalingPending (mkWorld l' pr ra wk (upscales w) cs).
Proof.
  intros Hl' Hw pr ra wk cs s' Hs' Hst. cbn in *.
  destruct (Hl' s' Hs' Hst) as (s & Hs & Hst0 & Hid).
  destruct (Hw s Hs Hst0) as (u & Hu & Hu'). exists u. split; [done|].
  congruence.
Qed.

Lemma upscalingPending_walk_patch w i f :
  (forall s, status (f s) <> UPSCALING) ->
  forall s', s' ∈ atIndex i f (steps w) -> status s' = UPSCALING ->
             exists s, s ∈ steps w /\ status s = UPSCALING
                       /\ step_id s = step_id s'.
Proof.
  intros Hf s' Hs' Hst.
  destruct (elem_of_atIndex _ _ _ _ Hs') as (s & Hs & [->| ->]).
  - by exists s.
  - by destruct (Hf s).
Qed.

Lemma upscalingPending_continueWalk w ratio r :
  upscalingPending w -> upscalingPending (continueWalk w ratio r).
Proof.
  intros Hw. destruct r as [|i step p rest]; cbn.
  - apply (upscalingPending_steps w (steps w)); [|done].
    intros s' ? ?. by exists s'.
  - apply (upscalingPending_steps w); [|done].
    by apply upscalingPending_walk_patch.
Qed.

Lemma upscalingPending_settled w k id f :
  upscales w !! k = Some (AwaitUpscale id)
  \/ upscales w !! k = Some (AwaitKeySelection id) ->
  (forall s, status (f s) <> UPSCALING) ->
  upscalingPending w ->
  forall pr ra wk cs,
    upscalingPending
      (mkWorld (byId id f (steps w)) pr ra wk (delete k (upscales w)) cs).
Proof.
  intros Hk Hf Hw pr ra wk cs s' Hs' Hst. cbn in *.
  destruct (elem_of_byId _ _ _ _ Hs') as (s & Hs & [[_ ->]|[Hne ->]]).
  { by destruct (Hf s). }
  destruct (Hw s Hs Hst) as (u & Hu & Hid). exists u. split; [|done].
  destruct Hk as [Hk|Hk]; eapply pending_delete; eauto; cbn; congruence.
Qed.

Lemma upscalingPending_dispatch w e :
  (forall k, e <> KeySelectionFailed k) ->
  upscalingPending w -> upscalingPending (dispatch w e).
Proof.
  intros Hnot Hw.
  destruct e as [uuid|id|id p|ratio| |id|k sdk|k env|k|k]; cbn [dispatch].
  - apply (upscalingPending_steps w); [|done].
    intros s' [Hs'|Hs']%elem_of_app Hst; [by exists s'|].
    apply list_elem_of_singleton in Hs'. by subst.
  - unfold removeStep. destruct (decide _); [done|].
    apply (upscalingPending_steps w); [|done].
    intros s' [_ Hs']%list_elem_of_filter Hst. by exists s'.
  - apply (upscalingPending_steps w); [|done]. intros s' Hs' Hst.
    destruct (elem_of_byId _ _ _ _ Hs') as (s & Hs & [[_ ->]|[_ ->]]);
      by exists s.
  - apply (upscalingPending_steps w (steps w)); [|done].
    intros s' ? ?. by exists s'.
  - unfold generateImages. destruct (isProcessing w); [done|].
    apply upscalingPending_continueWalk.
    apply (upscalingPending_steps w (steps w)); [|done].
    intros s' ? ?. by exists s'.
  - unfold handleUpscale. destruct (findStep _ _) as [step|]; [|done].
    destruct (imageBase64 step) as [image|]; [|done].
    destruct (_ || _); [done|].
    intros s' Hs' Hst. cbn in *.
    destruct (elem_of_byId _ _ _ _ Hs') as (s & Hs & [[Hid ->]|[Hne ->]]).
    + exists (AwaitUpscale id). split; [|done].
      apply elem_of_app. right. by apply list_elem_of_singleton.
    + destruct (Hw s Hs Hst) as (u & Hu & Hid). exists u. split; [|done].
      apply elem_of_app. by left.
  - unfold generateSettled. destruct (walks w !! k) as [t|]; [|done].
    destruct (generateFlowImage sdk) as [image|message].
    + apply upscalingPending_continueWalk.
      apply (upscalingPending_steps w); [|done].
      by apply upscalingPending_walk_patch.
    + apply (upscalingPending_steps w); [|done].
      by apply upscalingPending_walk_patch.
  - unfold upscaleSettled.
    destruct (upscales w !! k) as [[id|id]|] eqn:Hk; try done.
    destruct (upscaleFlowImage env) as [image|message].
    + apply upscalingPending_settled; auto.
    + destruct (_ || _).
      * intros s Hs Hst. cbn in *.
        destruct (Hw s Hs Hst) as (u & Hu & Hid).
        destruct (pending_insert _ k _ (AwaitKeySelection id) u Hk eq_refl Hu)
          as (u' & Hu' & Hid').
        exists u'. split; [done|congruence].
      * apply upscalingPending_settled; auto.
  - unfold keySelectionSettled.
    destruct (upscales w !! k) as [[id|id]|] eqn:Hk; try done.
    apply upscalingPending_settled; auto.
  - by destruct (Hnot k).
Qed.

(** As long as no key selection has failed, a step in [UPSCALING] has a
    [handleUpscale] call for its identifier in flight, waiting for the
    upscale or for the key selection: after any events from the start of
    the page, none of them a key selection that throws, the status is never
    left behind by a call that is over. *)
Theorem upscaling_has_call_in_flight uuid events s :
  (forall k, KeySelectionFailed k ∉ events) ->
  s ∈ steps (run (initial uuid) events) -> status s = UPSCALING ->
  exists u, u ∈ upscales (run (initial uuid) events)
            /\ upscaleId u = step_id s.
Proof.
  intros Hnot. revert s. change (upscalingPending (run (initial uuid) events)).
  assert (upscalingPending (initial uuid)) as Hinit.
  { intros s Hs Hst. cbn in Hs. apply list_elem_of_singleton in Hs.
    by subst. }
  revert Hinit. generalize (initial uuid).
  induction events as [|e events IH]; intros w Hw; [done|].
  rewrite run_cons. apply IH.
  - intros k Hin. apply (Hnot k). by apply list_elem_of_further.
  - apply upscalingPending_dispatch; [|done].
    intros k ->. apply (Hnot k). apply list_elem_of_here.
Qed.

Lemma upscaling_has_call_in_flight_witness :
  ((forall k,
      KeySelectionFailed k
      ∉ [UpdatePrompt "a" "empty room"; GenerateImages;
         GenerateSettled 0 (SdkResponse (Some [Some "A"]));
         HandleUpscale "a"])
   /\ mkStep "a" "empty room" UPSCALING (Some "A") (Some false) None
      ∈ steps (run (initial "a")
                 [UpdatePrompt "a" "empty room"; GenerateImages;
                  GenerateSettled 0 (SdkResponse (Some [Some "A"]));
                  HandleUpscale "a"]))
  /\ exists u,
       u ∈ upscales (run (initial "a")
                       [UpdatePrompt "a" "empty room"; GenerateImages;
                        GenerateSettled 0 (SdkResponse (Some [Some "A"]));
                        HandleUpscale "a"])
       /\ upscaleId u = "a".
Proof.
  assert (forall k,
            KeySelectionFailed k
            ∉ [UpdatePrompt "a" "empty room"; GenerateImages;
               GenerateSettled 0 (SdkResponse (Some [Some "A"]));
               HandleUpscale "a"]) as Hnot.
  { intros k Hin. repeat (apply elem_of_cons in Hin as [Hin|Hin]; [done|]).
    by apply elem_of_nil in Hin. }
  assert (mkStep "a" "empty room" UPSCALING (Some "A") (Some false) None
          ∈ steps (run (initial "a")
                     [UpdatePrompt "a" "empty room"; GenerateImages;
                      GenerateSettled 0 (SdkResponse (Some [Some "A"]));
                      HandleUpscale "a"])) as Hin.
  { apply (list_elem_of_lookup_2 _ 0). reflexivity. }
  split; [by split|].
  apply (upscaling_has_call_in_flight "a" _ _ Hnot Hin). reflexivity.
Defined.

(** The one way the status is left behind: the key selection throws, the
    handler is over, and the step stays [UPSCALING] with nothing in
    flight. *)
Example key_selection_failed :
  let w := run firstGenerated
               [HandleUpscale "a";
                UpscaleSettled 0 (mkUpscaleEnv (Some false) (SdkThrows ""));
                KeySelectionFailed 0] in
  steps w = [mkStep "a" "empty room" UPSCALING (Some "A") (Some false) None]
  /\ upscales w = []
  /\ calls w = calls firstGenerated
               ++ [CallUpscale "empty room" "A" Ratio_16_9; CallKeySelection].
Proof. by vm_compute. Qed.

(** ** Editing and removing steps *)

(** Editing the prompt of a step that is [COMPLETED] with an image does not
    make the next walk generate it again: a walk started after the edit and
    left alone leaves the step with its new prompt and its old image, and
    makes no call for it. *)
Theorem edited_step_is_not_regenerated w j s image newPrompt :
  reachable w -> isProcessing w = false ->
  steps w !! j = Some s -> status s = COMPLETED ->
  imageBase64 s = Some image ->
  let w1 := dispatch w (UpdatePrompt (step_id s) newPrompt) in
  forall sdks,
    steps (runFlow w1 sdks) !! j
    = Some (mkStep (step_id s) newPrompt COMPLETED (Some image)
                   (isUpscaled s) (error s))
    /\ exists new,
         calls (runFlow w1 sdks) = calls w ++ new
         /\ forall c, c ∈ new ->
              exists k p r a, c = CallGenerate k p r a /\ k <> j.
Proof.
  intros Hr Hp Hj Hst Him. cbv zeta. intros sdks.
  pose proof (reachable_hasImage _ _ _ _ Hr Hj Him) as Hhas.
  assert (reachable (dispatch w (UpdatePrompt (step_id s) newPrompt))) as Hr1
    by (by constructor).
  assert (steps (dispatch w (UpdatePrompt (step_id s) newPrompt)) !! j
          = Some (withPrompt newPrompt s)) as Hj1.
  { cbn. rewrite byId_lookup, Hj. cbn. by rewrite decide_True. }
  assert (needsGeneration (withPrompt newPrompt s) = false) as Hno.
  { unfold needsGeneration.
    change (hasImage (withPrompt newPrompt s)) with (hasImage s).
    cbn [status withPrompt]. rewrite Hhas, Hst. cbn. apply andb_false_r. }
  destruct (passed_over _ j _ sdks (reachable_idle _ Hr1 Hp) Hj1 Hno)
    as (Hsame & new & Hcalls & Hnew).
  split.
  - rewrite Hsame. unfold withPrompt. by rewrite Hst, Him.
  - exists new. split; [done|]. intros c Hc.
    destruct (Hnew c Hc) as (k & p & r & a & -> & Hne & _).
    by exists k, p, r, a.
Qed.

Lemma edited_step_is_not_regenerated_witness :
  (reachable firstDone /\ isProcessing firstDone = false)
  /\ steps (runFlow (dispatch firstDone (UpdatePrompt "a" "a furnished room"))
                    [SdkResponse (Some [Some "B"])]) !! 0
     = Some (mkStep "a" "a furnished room" COMPLETED (Some "A") (Some false)
                    None).
Proof.
  split; [split; [exact reachable_firstDone|reflexivity]|].
  apply (edited_step_is_not_regenerated firstDone 0
           (mkStep "a" "empty room" COMPLETED (Some "A") (Some false) None)
           "A" "a furnished room" reachable_firstDone); reflexivity.
Defined.

Lemma findStep_unique l s :
  NoDup (step_id <$> l) -> s ∈ l -> findStep (step_id s) l = Some s.
Proof.
  induction l as [|x l IH]; [by intros _ ?%elem_of_nil|].
  rewrite fmap_cons, NoDup_cons. intros [Hx Hnd] Hin.
  unfold findStep. cbn. apply elem_of_cons in Hin as [->|Hin].
  - by rewrite bool_decide_eq_true_2.
  - rewrite bool_decide_eq_false_2; [by apply IH|].
    intros Heq. apply Hx. rewrite Heq. by apply list_elem_of_fmap_2.
Qed.

Lemma filter_is_delete (l : list FlowStep) : forall j s,
  NoDup (step_id <$> l) -> l !! j = Some s ->
  filter (fun x => step_id x <> step_id s) l = delete j l.
Proof.
  induction l as [|x l IH]; intros j s; [done|].
  rewrite fmap_cons, NoDup_cons. intros [Hx Hnd] Hj.
  destruct j as [|j]; cbn in Hj.
  - injection Hj as ->. rewrite filter_cons_False by (intros Hc; by apply Hc).
    by rewrite filter_other_all.
  - assert (step_id x <> step_id s) as Hne.
    { intros Heq. apply Hx. rewrite Heq.
      apply list_elem_of_fmap_2. by eapply list_elem_of_lookup_2. }
    rewrite filter_cons_True by done. cbn. f_equal. by apply IH.
Qed.

(** In a reachable state with at least two steps, [removeStep] takes out
    the step with the given identifier and nothing else: the other steps
    keep their order and content.  With an identifier no step has it
    changes nothing; and removing a step that was just added gives back
    the list as it was. *)
Theorem removeStep_removes_one w :
  reachable w ->
  (forall j s, steps w !! j = Some s -> 2 <= length (steps w) ->
     steps (dispatch w (RemoveStep (step_id s))) = delete j (steps w))
  /\ (forall id, id ∉ step_id <$> steps w ->
        steps (dispatch w (RemoveStep id)) = steps w)
  /\ (forall uuid, uuid ∉ step_id <$> steps w ->
        steps (run w [AddStep uuid; RemoveStep uuid]) = steps w).
Proof.
  intros Hr. pose proof (reachable_wellFormed _ Hr) as Hwf.
  split; [|split].
  - intros j s Hj Hlen. cbn. unfold removeStep.
    rewrite decide_False by lia. cbn.
    apply filter_is_delete; [apply (wf_ids _ Hwf)|done].
  - intros id Hid. cbn. unfold removeStep. destruct (decide _); [done|].
    cbn. by apply filter_other_all.
  - intros uuid Hfresh. cbn. unfold removeStep. cbn.
    pose proof (wf_nonempty _ Hwf).
    rewrite decide_False by (rewrite length_app; cbn; lia). cbn.
    rewrite filter_app, filter_other_all by done.
    rewrite filter_cons_False by (intros Hc; by apply Hc).
    by rewrite filter_nil, app_nil_r.
Qed.

Lemma removeStep_removes_one_witness :
  reachable firstDone
  /\ steps (dispatch firstDone (RemoveStep "a"))
     = delete 0 (steps firstDone).
Proof.
  split; [exact reachable_firstDone|].
  apply (proj1 (removeStep_removes_one firstDone reachable_firstDone) 0
           (mkStep "a" "empty room" COMPLETED (Some "A") (Some false) None)).
  - reflexivity.
  - apply le_n.
Defined.

(** ** The upscale handler and the card *)

Lemma findStep_id id l step : findStep id l = Some step -> step_id step = id.
Proof.
  unfold findStep. intros [_ H]%find_some. by apply bool_decide_eq_true in H.
Qed.

Lemma generic_failure_run w id step image env message :
  findStep id (steps w) = Some step ->
  imageBase64 step = Some image -> Js.truthy image = true ->
  status step <> UPSCALING ->
  upscaleFlowImage env = RejectedWith message ->
  message <> API_KEY_REQUIRED -> message <> API_KEY_INVALID ->
  run w [HandleUpscale id; UpscaleSettled (length (upscales w)) env]
  = mkWorld (byId id upscaleFailed (steps w)) (isProcessing w) (aspectRatio w)
            (walks w) (upscales w)
            (calls w ++ [CallUpscale (prompt step) image (aspectRatio w)]).
Proof.
  intros Hf Him Ht Hst Hu Hreq Hinv. cbn [run fold_left dispatch].
  rewrite (handleUpscale_accepted _ _ _ _ Hf Him Ht Hst).
  unfold upscaleSettled. cbn [upscales steps isProcessing aspectRatio walks
                              calls].
  rewrite list_lookup_middle by done. rewrite Hu.
  rewrite !bool_decide_eq_false_2 by done. cbn [orb].
  rewrite delete_middle, app_nil_r. rewrite byId_compose by done.
  by rewrite (byId_ext id (fun s => upscaleFailed (markUpscaling s))
                upscaleFailed).
Qed.

(** When the upscale call fails for any reason other than a missing key,
    [handleUpscale(id)] sets the step back to [COMPLETED] with the fixed
    error ["Upscale failed. Please try again."]: the message of the failure
    is not stored, image and [isUpscaled] are what they were, every other
    step is as it was, the key selection is not called and nothing is left
    pending. *)
Theorem generic_upscale_failure w id step image env message :
  findStep id (steps w) = Some step ->
  imageBase64 step = Some image -> Js.truthy image = true ->
  status step <> UPSCALING ->
  upscaleFlowImage env = RejectedWith message ->
  message <> API_KEY_REQUIRED -> message <> API_KEY_INVALID ->
  let w' := run w [HandleUpscale id;
                   UpscaleSettled (length (upscales w)) env] in
  upscales w' = upscales w
  /\ calls w' = calls w ++ [CallUpscale (prompt step) image (aspectRatio w)]
  /\ forall j s, steps w !! j = Some s ->
       exists s', steps w' !! j = Some s'
                  /\ (step_id s = id ->
                      s' = mkStep (step_id s) (prompt s) COMPLETED
                                  (imageBase64 s) (isUpscaled s)
                                  (Some "Upscale failed. Please try again."))
                  /\ (step_id s <> id -> s' = s).
Proof.
  intros Hf Him Ht Hst Hu Hreq Hinv. cbv zeta.
  rewrite (generic_failure_run _ _ _ _ _ _ Hf Him Ht Hst Hu Hreq Hinv). cbn.
  split; [done|]. split; [done|]. intros j s Hj.
  rewrite byId_lookup, Hj. cbn.
  destruct (decide (step_id s = id)); eexists; repeat split; done.
Qed.

Lemma generic_upscale_failure_witness :
  upscaleFlowImage (mkUpscaleEnv None (SdkResponse None))
  = RejectedWith "No upscaled image data found"
  /\ calls (run firstGenerated
              [HandleUpscale "a";
               UpscaleSettled (length (upscales firstGenerated))
                 (mkUpscaleEnv None (SdkResponse None))])
     = calls firstGenerated
       ++ [CallUpscale "empty room" "A" (aspectRatio firstGenerated)].
Proof.
  split; [reflexivity|].
  apply (generic_upscale_failure firstGenerated "a"
           (mkStep "a" "empty room" COMPLETED (Some "A") (Some false) None)
           "A" (mkUpscaleEnv None (SdkResponse None))
           "No upscaled image data found"); try reflexivity; discriminate.
Defined.

(** The message [handleUpscale] stores after a failed upscale is never on
    the page: the step still has its image, so its card shows the picture
    with the action overlay (download, and "Upscale 2K" unless the image
    was upscaled before), and the error text is only rendered for a step
    without an image. *)
Theorem upscale_failure_message_not_shown w id step image env message j :
  findStep id (steps w) = Some step -> steps w !! j = Some step ->
  imageBase64 step = Some image -> Js.truthy image = true ->
  status step <> UPSCALING ->
  upscaleFlowImage env = RejectedWith message ->
  message <> API_KEY_REQUIRED -> message <> API_KEY_INVALID ->
  let w' := run w [HandleUpscale id;
                   UpscaleSettled (length (upscales w)) env] in
  exists s',
    steps w' !! j = Some s'
    /\ error s' = Some "Upscale failed. Please try again."
    /\ outputArea s'
       = Some (mkOutput (bool_decide (isUpscaled step = Some true))
                 (Picture false true
                    (negb (bool_decide (isUpscaled step = Some true))))).
Proof.
  intros Hf Hj Him Ht Hst Hu Hreq Hinv. cbv zeta.
  rewrite (generic_failure_run _ _ _ _ _ _ Hf Him Ht Hst Hu Hreq Hinv). cbn.
  exists (upscaleFailed step). split; [|split; [done|]].
  - rewrite byId_lookup, Hj. cbn.
    by rewrite decide_True by (by eapply findStep_id).
  - unfold outputArea, hasImage. cbn. rewrite Him. cbn. rewrite Ht. cbn.
    by rewrite andb_true_r.
Qed.

Lemma upscale_failure_message_not_shown_witness :
  upscaleFlowImage (mkUpscaleEnv None (SdkThrows "quota exceeded"))
  = RejectedWith "quota exceeded"
  /\ exists s',
       steps (run firstGenerated
                [HandleUpscale "a";
                 UpscaleSettled (length (upscales firstGenerated))
                   (mkUpscaleEnv None (SdkThrows "quota exceeded"))]) !! 0
       = Some s'
       /\ error s' = Some "Upscale failed. Please try again."
       /\ outputArea s' = Some (mkOutput false (Picture false true true)).
Proof.
  split; [reflexivity|].
  apply (upscale_failure_message_not_shown firstGenerated "a"
           (mkStep "a" "empty room" COMPLETED (Some "A") (Some false) None)
           "A" (mkUpscaleEnv None (SdkThrows "quota exceeded"))
           "quota exceeded" 0); try reflexivity; discriminate.
Defined.

Lemma onCard_found w id p :
  NoDup (step_id <$> steps w) -> onCard id p w = true ->
  exists s, findStep id (steps w) = Some s /\ p s = true.
Proof.
  intros Hnd. unfold onCard. rewrite existsb_exists.
  intros (s & Hin & Hs). apply andb_true_iff in Hs as [Hid Hp].
  apply bool_decide_eq_true in Hid. subst id.
  exists s. split; [|done]. apply findStep_unique; [done|].
  by apply list_elem_of_In.
Qed.

(** A click on the "Upscale 2K" button is never refused: in a reachable
    state, when the card of [id] offers the button, [handleUpscale(id)]
    marks the step [UPSCALING] and calls the service once, with the prompt
    and the image of that step and the current aspect ratio. *)
Theorem offered_upscale_is_accepted w id :
  reachable w -> offered w (HandleUpscale id) = true ->
  exists step image,
    findStep id (steps w) = Some step /\ imageBase64 step = Some image
    /\ dispatch w (HandleUpscale id)
       = mkWorld (byId id markUpscaling (steps w)) (isProcessing w)
                 (aspectRatio w) (walks w) (upscales w ++ [AwaitUpscale id])
                 (calls w ++ [CallUpscale (prompt step) image (aspectRatio w)]).
Proof.
  intros Hr Hoff. cbn in Hoff.
  destruct (onCard_found w id _ (wf_ids _ (reachable_wellFormed _ Hr)) Hoff)
    as (step & Hf & Hup).
  unfold upscaleOffered in Hup.
  repeat (apply andb_true_iff in Hup as [Hup ?]).
  assert (hasImage step = true) as Him by done.
  assert (status step <> UPSCALING) as Hst.
  { intros Heq. rewrite Heq in *. by cbn in *. }
  unfold hasImage in Him. destruct (imageBase64 step) as [image|] eqn:Hi;
    [|done].
  exists step, image. split; [done|]. split; [done|].
  by apply handleUpscale_accepted.
Qed.

Lemma offered_upscale_is_accepted_witness :
  (reachable errorWithImage
   /\ offered errorWithImage (HandleUpscale "a") = true)
  /\ exists step image,
       findStep "a" (steps errorWithImage) = Some step
       /\ imageBase64 step = Some image
       /\ dispatch errorWithImage (HandleUpscale "a")
          = mkWorld (byId "a" markUpscaling (steps errorWithImage))
              (isProcessing errorWithImage) (aspectRatio errorWithImage)
              (walks errorWithImage)
              (upscales errorWithImage ++ [AwaitUpscale "a"])
              (calls errorWithImage
               ++ [CallUpscale (prompt step) image
                               (aspectRatio errorWithImage)]).
Proof.
  assert (reachable errorWithImage) as Hr.
  { apply reachable_run; [constructor|reflexivity]. }
  split; [split; [exact Hr|reflexivity]|].
  apply (offered_upscale_is_accepted errorWithImage "a" Hr). reflexivity.
Defined.

(** Once an upscale has succeeded the page does not offer it again for that
    step: after [handleUpscale(id)] and a fulfilled call, no card with that
    identifier shows the "Upscale 2K" button. *)
Theorem upscaled_step_not_offered_again w id step image env upscaled :
  findStep id (steps w) = Some step ->
  imageBase64 step = Some image -> Js.truthy image = true ->
  status step <> UPSCALING ->
  upscaleFlowImage env = Fulfilled upscaled ->
  let w' := run w [HandleUpscale id;
                   UpscaleSettled (length (upscales w)) env] in
  steps w' = byId id (storeUpscaled upscaled) (steps w)
  /\ offered w' (HandleUpscale id) = false.
Proof.
  intros Hf Him Ht Hst Hu. cbv zeta. cbn [run fold_left dispatch].
  rewrite (handleUpscale_accepted _ _ _ _ Hf Him Ht Hst).
  unfold upscaleSettled. cbn [upscales steps isProcessing aspectRatio walks
                              calls].
  rewrite list_lookup_middle by done. rewrite Hu.
  cbn [steps]. rewrite byId_compose by done.
  rewrite (byId_ext id (fun s => storeUpscaled upscaled (markUpscaling s))
             (storeUpscaled upscaled)) by done.
  split; [done|]. cbn [offered]. unfold onCard. cbn [steps].
  apply not_true_iff_false. rewrite existsb_exists.
  intros (s' & Hin & Hs'). apply andb_true_iff in Hs' as [Hid Hoff].
  apply bool_decide_eq_true in Hid.
  apply list_elem_of_In in Hin.
  destruct (elem_of_byId _ _ _ _ Hin) as (s & _ & [[_ ->]|[Hne ->]]);
    [|done].
  unfold upscaleOffered in Hoff. cbn in Hoff.
  by rewrite !andb_false_r in Hoff.
Qed.

Lemma upscaled_step_not_offered_again_witness :
  upscaleFlowImage (mkUpscaleEnv None (SdkResponse (Some [Some "A2"])))
  = Fulfilled "A2"
  /\ offered
       (run firstGenerated
          [HandleUpscale "a";
           UpscaleSettled (length (upscales firstGenerated))
             (mkUpscaleEnv None (SdkResponse (Some [Some "A2"])))])
       (HandleUpscale "a") = false.
Proof.
  split; [reflexivity|].
  apply (upscaled_step_not_offered_again firstGenerated "a"
           (mkStep "a" "empty room" COMPLETED (Some "A") (Some false) None)
           "A" (mkUpscaleEnv None (SdkResponse (Some [Some "A2"]))) "A2");
    try reflexivity; discriminate.
Defined.

(** ** Results are written back by position *)

Lemma continueWalk_below w ratio rest n previousImage j :
  j < n ->
  steps (continueWalk w ratio (loop rest n previousImage)) !! j = steps w !! j.
Proof.
  intros Hlt. destruct (loop rest n previousImage) as [|i' step' p' rest']
    eqn:Hloop; [done|].
  apply loop_await in Hloop as (mid & _ & -> & _). cbn.
  apply atIndex_lookup_ne. lia.
Qed.

Lemma generateSettled_writes w k t sdk :
  walks w !! k = Some t ->
  (forall j, j < walk_index t ->
     steps (generateSettled k sdk w) !! j = steps w !! j)
  /\ (forall s, steps w !! walk_index t = Some s ->
        steps (generateSettled k sdk w) !! walk_index t
        = Some match generateFlowImage sdk with
               | Fulfilled image => storeGenerated image s
               | RejectedWith message => markError message s
               end).
Proof.
  intros Hk. unfold generateSettled. rewrite Hk.
  destruct (generateFlowImage sdk) as [image|message]; split.
  - intros j Hj. rewrite continueWalk_below by lia. cbn.
    apply atIndex_lookup_ne. lia.
  - intros s Hs. rewrite continueWalk_below by lia. cbn.
    by apply atIndex_lookup_eq.
  - intros j Hj. cbn. apply atIndex_lookup_ne. lia.
  - intros s Hs. cbn. by apply atIndex_lookup_eq.
Qed.

(** The walk writes its results by position in the list, not by
    identifier.  When a step that stands before the one being generated is
    removed while the call is pending, the answer (image or error) is
    stored on the step that followed the one being generated, and the step
    that was being generated is left exactly as it was. *)
Theorem removal_shifts_walk_target w k t j x g sdk :
  NoDup (step_id <$> steps w) ->
  walks w !! k = Some t ->
  steps w !! j = Some x -> j < walk_index t ->
  steps w !! walk_index t = Some g ->
  let w' := run w [RemoveStep (step_id x); GenerateSettled k sdk] in
  steps w' !! (walk_index t - 1) = Some g
  /\ forall next, steps w !! S (walk_index t) = Some next ->
       steps w' !! walk_index t
       = Some match generateFlowImage sdk with
              | Fulfilled image => storeGenerated image next
              | RejectedWith message => markError message next
              end.
Proof.
  intros Hnd Hk Hj Hlt Hg. cbv zeta. cbn [run fold_left dispatch].
  assert (removeStep (step_id x) w
          = mkWorld (delete j (steps w)) (isProcessing w) (aspectRatio w)
                    (walks w) (upscales w) (calls w)) as ->.
  { unfold removeStep. apply lookup_lt_Some in Hg.
    rewrite decide_False by lia. by rewrite (filter_is_delete _ j x). }
  destruct (generateSettled_writes
              (mkWorld (delete j (steps w)) (isProcessing w) (aspectRatio w)
                       (walks w) (upscales w) (calls w)) k t sdk Hk)
    as [Hbelow Hat].
  split.
  - rewrite Hbelow by lia. cbn. rewrite list_lookup_delete_ge by lia.
    by replace (S (walk_index t - 1)) with (walk_index t) by lia.
  - intros next Hnext. apply Hat. cbn.
    by rewrite list_lookup_delete_ge by lia.
Qed.

Lemma removal_shifts_walk_target_witness :
  (NoDup (step_id <$> steps secondGenerating)
   /\ walks secondGenerating !! 0
      = Some (mkWalk 1 (mkStep "b" "add a sofa" IDLE None None None)
                     [mkStep "c" "add a lamp" IDLE None None None]
                     (Some "A") Ratio_16_9))
  /\ steps (run secondGenerating
              [RemoveStep "a";
               GenerateSettled 0 (SdkResponse (Some [Some "B"]))]) !! 0
     = Some (mkStep "b" "add a sofa" GENERATING None None None).
Proof.
  assert (NoDup (step_id <$> steps secondGenerating)) as Hnd.
  { apply (wf_ids secondGenerating). apply reachable_wellFormed.
    apply reachable_run; [constructor|reflexivity]. }
  split; [split; [exact Hnd|reflexivity]|].
  apply (removal_shifts_walk_target secondGenerating 0
           (mkWalk 1 (mkStep "b" "add a sofa" IDLE None None None)
                   [mkStep "c" "add a lamp" IDLE None None None]
                   (Some "A") Ratio_16_9)
           0 (mkStep "a" "empty room" COMPLETED (Some "A") (Some false) None)
           (mkStep "b" "add a sofa" GENERATING None None None)
           (SdkResponse (Some [Some "B"])) Hnd); try reflexivity.
  cbn. lia.
Defined.

Example removal_mid_walk :
  steps (run secondGenerating
           [RemoveStep "a";
            GenerateSettled 0 (SdkResponse (Some [Some "B"]))])
  = [mkStep "b" "add a sofa" GENERATING None None None;
     mkStep "c" "add a lamp" COMPLETED (Some "B") (Some false) None].
Proof. by vm_compute. Qed.

(** ** The calls of a walk *)

Lemma walkFrom_calls l : forall i previousImage ratio sdks before,
  length before = i ->
  let r := walkFrom l i previousImage ratio sdks in
  Forall (fun c =>
            i <= callIndex c
            /\ match c with
               | CallGenerate k p ref a =>
                   a = ratio
                   /\ (exists s, (before ++ r.1) !! k = Some s /\ p = prompt s)
                   /\ ref = fold_left adopt (take (k - i) r.1) previousImage
               | _ => False
               end) r.2
  /\ StronglySorted (fun c1 c2 => callIndex c1 < callIndex c2) r.2.
Proof.
  induction l as [|step rest IH]; intros i p ratio sdks before Hlen; cbv zeta.
  { split; constructor. }
  cbn [walkFrom]. destruct (needsGeneration step) eqn:Hn.
  - assert (forall final,
              i <= callIndex (CallGenerate i (prompt step) p ratio)
              /\ ratio = ratio
              /\ (exists s, (before ++ markGenerating step :: final) !! i
                            = Some s /\ prompt step = prompt s)
              /\ p = fold_left adopt
                       (take (i - i) (markGenerating step :: final)) p)
      as Hhead.
    { intros final. split; [done|]. split; [done|]. split.
      - exists (markGenerating step). subst i.
        by rewrite list_lookup_middle.
      - by rewrite Nat.sub_diag. }
    destruct sdks as [|sdk sdks].
    { cbn [fst snd]. split; repeat constructor; apply (Hhead rest). }
    destruct (generateFlowImage sdk) as [image|message] eqn:Hg.
    2: { cbn [fst snd]. split; repeat constructor; try done.
         - exists (markError message (markGenerating step)). subst i.
           by rewrite list_lookup_middle.
         - by rewrite Nat.sub_diag. }
    destruct (IH (S i) (Some image) ratio sdks
                (before ++ [storeGenerated image (markGenerating step)]))
      as [Hall Hsorted]; [rewrite length_app; cbn; lia|].
    cbv zeta in Hall, Hsorted. cbn [fst snd].
    assert (Forall (fun c => i < callIndex c)
              (walkFrom rest (S i) (Some image) ratio sdks).2) as Hgt.
    { eapply Forall_impl; [exact Hall|]. intros c [Hc _]. lia. }
    split; [|by constructor].
    constructor.
    + split; [done|]. split; [done|]. split.
      * exists (storeGenerated image (markGenerating step)). subst i.
        by rewrite list_lookup_middle.
      * by rewrite Nat.sub_diag.
    + eapply Forall_impl; [exact Hall|]. intros c [Hc Hrest].
      split; [lia|]. destruct c as [k q ref a| |]; [|done..].
      cbn in Hc. destruct Hrest as (Ha & Hs & Href).
      split; [done|]. split; [by rewrite <- app_assoc in Hs|].
      replace (k - i) with (S (k - S i)) by lia. cbn.
      unfold adopt at 2. unfold hasImage. cbn.
      by rewrite (generateFlowImage_truthy _ _ Hg).
  - destruct (IH (S i) (adopt p step) ratio sdks (before ++ [step]))
      as [Hall Hsorted]; [rewrite length_app; cbn; lia|].
    cbv zeta in Hall, Hsorted. cbn [fst snd]. split; [|done].
    eapply Forall_impl; [exact Hall|]. intros c [Hc Hrest].
    split; [lia|]. destruct c as [k q ref a| |]; [|done..].
    cbn in Hc. destruct Hrest as (Ha & Hs & Href).
    split; [done|]. split; [by rewrite <- app_assoc in Hs|].
    by replace (k - i) with (S (k - S i)) by lia.
Qed.

(** The calls of a walk left alone: they are generate calls made in list
    order, at most one for a step; each carries the prompt of its step and
    the aspect ratio of the start; and its reference is the image of the
    nearest earlier step that holds one when the walk is over, whether that
    image was stored before the walk or generated by it, and nothing when
    no earlier step holds an image. *)
Theorem walk_calls_chain_references w0 sdks :
  idle w0 ->
  exists new,
    calls (runFlow w0 sdks) = calls w0 ++ new
    /\ Forall (chainedCall (steps (runFlow w0 sdks)) (aspectRatio w0)) new
    /\ StronglySorted (fun c1 c2 => callIndex c1 < callIndex c2) new.
Proof.
  intros Hidle. destruct (runFlow_walkFrom w0 sdks Hidle) as [Hs Hc].
  destruct (walkFrom_calls (steps w0) 0 None (aspectRatio w0) sdks [] eq_refl)
    as [Hall Hsorted].
  cbv zeta in Hall, Hsorted.
  exists (walkFrom (steps w0) 0 None (aspectRatio w0) sdks).2.
  split; [done|]. split; [|done]. rewrite Hs.
  eapply Forall_impl; [exact Hall|]. intros c [_ Hc'].
  destruct c as [k p r a| |]; [|done..]. cbn in *.
  by rewrite Nat.sub_0_r in Hc'.
Qed.

Lemma walk_calls_chain_references_witness :
  idle firstDone
  /\ exists new,
       calls (runFlow firstDone [SdkResponse (Some [Some "B"])])
       = calls firstDone ++ new
       /\ Forall (chainedCall
                    (steps (runFlow firstDone [SdkResponse (Some [Some "B"])]))
                    (aspectRatio firstDone)) new
       /\ StronglySorted (fun c1 c2 => callIndex c1 < callIndex c2) new.
Proof.
  assert (idle firstDone) as Hidle by (split; reflexivity).
  split; [exact Hidle|].
  apply (walk_calls_chain_references firstDone _ Hidle).
Defined.

Lemma loop_nothing l : forall i previousImage,
  Forall (fun s => needsGeneration s = false) l ->
  loop l i previousImage = LoopEnd.
Proof.
  induction l as [|step rest IH]; intros i p Hl; [done|].
  apply Forall_cons in Hl as [Hn Hrest]. rewrite loop_pass by done.
  by apply IH.
Qed.

(** Running the flow when no step needs generation (every prompt blank, or
    every step already completed with its image) does nothing at all: no
    step changes, no call is made, and the flag is clear again at once. *)
Theorem nothing_to_generate w :
  idle w -> Forall (fun s => needsGeneration s = false) (steps w) ->
  dispatch w GenerateImages = w.
Proof.
  intros [Hp Hw] Hall. cbn. unfold generateImages. rewrite Hp.
  rewrite loop_nothing by done. cbn. destruct w; cbn in *. by subst.
Qed.

Lemma nothing_to_generate_witness :
  (idle (initial "a")
   /\ Forall (fun s => needsGeneration s = false) (steps (initial "a")))
  /\ dispatch (initial "a") GenerateImages = initial "a".
Proof.
  assert (idle (initial "a")) as Hidle by (split; reflexivity).
  assert (Forall (fun s => needsGeneration s = false) (steps (initial "a")))
    as Hall by (by repeat constructor).
  split; [by split|].
  apply (nothing_to_generate (initial "a") Hidle Hall).
Defined.

(** * Where the code departs from the specification of the walk

    [generateImages] writes its results back by position
    ([idx === i]), while [removeStep] takes a step out by identifier and
    the page disables the delete button of the generating card only.  In
    each run below every action is one the page offers. *)

(** C1.  The claim: when the generate call fails at step [i], step [i] is
    marked [ERROR] with the message and the steps after it are left
    untouched.  The code, in [removalThenFailure]: the walk awaits the call
    for the second scene ["b"] when the first scene is removed; the call
    fails, and the walk marks the scene after it, ["c"], [ERROR] with the
    message, while ["b"], whose call failed, stays [GENERATING] with no
    error, and the walk is over. *)
Theorem failure_marks_the_following_step :
  reachable (run (initial "a") removalThenFailure)
  /\ allOffered (initial "a") removalThenFailure = true
  /\ run (initial "a") removalThenFailure
     = run secondGenerating
           [RemoveStep "a"; GenerateSettled 0 (SdkThrows "rate limited")]
  /\ steps secondGenerating
     = [mkStep "a" "empty room" COMPLETED (Some "A") (Some false) None;
        mkStep "b" "add a sofa" GENERATING None None None;
        mkStep "c" "add a lamp" IDLE None None None]
  /\ walks secondGenerating
     = [mkWalk 1 (mkStep "b" "add a sofa" IDLE None None None)
               [mkStep "c" "add a lamp" IDLE None None None]
               (Some "A") Ratio_16_9]
  /\ steps (run (initial "a") removalThenFailure)
     = [mkStep "b" "add a sofa" GENERATING None None None;
        mkStep "c" "add a lamp" ERROR None None (Some "rate limited")]
  /\ walks (run (initial "a") removalThenFailure) = []
  /\ isProcessing (run (initial "a") removalThenFailure) = false.
Proof.
  split; [|by vm_compute].
  apply reachable_run; [constructor|reflexivity].
Qed.

(** C2.  The claim: a step that is [COMPLETED] with an image when a walk
    starts is not modified by the walk.  The code, in [removalThenSuccess]
    from [thirdCompleted]: the third scene ["c"] is [COMPLETED] with image
    ["C"] when the walk starts; the second scene is removed while the call
    for the first is pending; the walk then marks ["c"] [GENERATING] and
    stores on it the image ["B"] it generated from the prompt of the
    removed scene. *)
Theorem completed_step_is_overwritten :
  reachable (run thirdCompleted removalThenSuccess)
  /\ allOffered thirdCompleted removalThenSuccess = true
  /\ isProcessing thirdCompleted = false
  /\ steps thirdCompleted
     = [mkStep "a" "empty room" IDLE None None None;
        mkStep "b" "add a sofa" IDLE None None None;
        mkStep "c" "add a lamp" COMPLETED (Some "C") (Some false) None]
  /\ steps (run thirdCompleted (take 3 removalThenSuccess))
     = [mkStep "a" "empty room" COMPLETED (Some "A") (Some false) None;
        mkStep "c" "add a lamp" GENERATING (Some "C") (Some false) None]
  /\ steps (run thirdCompleted removalThenSuccess)
     = [mkStep "a" "empty room" COMPLETED (Some "A") (Some false) None;
        mkStep "c" "add a lamp" COMPLETED (Some "B") (Some false) None]
  /\ calls (run thirdCompleted removalThenSuccess)
     = calls thirdCompleted
       ++ [CallGenerate 0 "empty room" None Ratio_16_9;
           CallGenerate 1 "add a sofa" (Some "A") Ratio_16_9].
Proof.
  split; [|by vm_compute].
  apply reachable_run; [|reflexivity].
  apply reachable_run; [constructor|reflexivity].
Qed.

(** C3.  The claim: a step with a blank prompt is skipped by the walk
    without any mutation.  The code, in [removalThenBlankMarked] from
    [thirdBlank]: the third scene ["c"] has an empty prompt and is [IDLE];
    the second scene is removed while the call for the first is pending;
    the walk then marks ["c"] [GENERATING] and, when the call it made for
    the removed scene fails, [ERROR] with the message. *)
Theorem blank_step_is_marked :
  reachable (run thirdBlank removalThenBlankMarked)
  /\ allOffered thirdBlank removalThenBlankMarked = true
  /\ isProcessing thirdBlank = false
  /\ steps thirdBlank
     = [mkStep "a" "empty room" IDLE None None None;
        mkStep "b" "add a sofa" IDLE None None None;
        mkStep "c" "" IDLE None None None]
  /\ steps (run thirdBlank (take 3 removalThenBlankMarked))
     = [mkStep "a" "empty room" COMPLETED (Some "A") (Some false) None;
        mkStep "c" "" GENERATING None None None]
  /\ steps (run thirdBlank removalThenBlankMarked)
     = [mkStep "a" "empty room" COMPLETED (Some "A") (Some false) None;
        mkStep "c" "" ERROR None None (Some "rate limited")].
Proof.
  split; [|by vm_compute].
  apply reachable_run; [|reflexivity].
  apply reachable_run; [constructor|reflexivity].
Qed.
